(** * The Ludo engine of [gudo_game.py]

    A shallow embedding of the rule logic of [src/gudo_game.py]: the
    movement functions [can_move_token] and [advance_position], the path
    built by [LudoGame.make_move], and the turn controller made of the Tk
    handlers [roll_dice], [ai_roll], [on_token_clicked], [make_move],
    [check_capture], [next_turn] and [check_winner].

    Conventions.
    - A token position is a Python [int], here a [Z]: [-1] in base,
      [0..51] on the shared track, [52..57] in the home stretch.
    - A player index is a list index, here a [nat].  A lookup that raises
      [IndexError] in Python is [None] here, and a handler that raises is
      [None] as a whole.
    - Values drawn from [random] are arguments of the handler that draws
      them.
    - Callbacks registered with [root.after]/[canvas.after] are kept in the
      game state until an event fires them.
    - A [<<TokenClicked>>] event is the [data] that the handler finds on
      it, if any.
    - A game played from the start is a state that some sequence of events
      leads to from the game that [init_players] sets up.
    - Widget calls (labels, canvas items, the drawn die, sounds) belong to
      the rendering surface and are left out; their only lookups,
      [COLORS[...]] by player index, succeed for the 2 to 4 players that
      the setup dialog allows. *)

From Stdlib Require Import QArith Sorted.
From stdpp Require Import base numbers option list.

Local Open Scope Z_scope.

(** ** Constants *)

Definition TOKENS_PER_PLAYER : nat := 4.
Definition MAIN_PATH_LEN : Z := 52.
Definition HOME_STRETCH_LEN : Z := 6.

Definition START_POSITIONS : list Z := [0; 13; 26; 39].
Definition HOME_ENTRY : list Z := [51; 12; 25; 38].

(** ** Movement engine *)

(** The distance computed inline, and identically, by [can_move_token]
    and [advance_position]:
    [dist = entry - pos if entry >= pos else MAIN_PATH_LEN - (pos - entry)]. *)
Definition dist_to_entry (entry pos : Z) : Z :=
  if bool_decide (entry >= pos) then entry - pos
  else MAIN_PATH_LEN - (pos - entry).

(** The forward clockwise distance on the 52-cell track from [pos] to
    [entry], as the specification words it; [dist_to_entry_forward] below
    shows that the code computes it. *)
Definition forward_distance (entry pos : Z) : Z := (entry - pos) `mod` 52.

(** [can_move_token(token, player_idx, roll)], on [token.pos]. *)
Definition can_move_token (pos : Z) (player_idx : nat) (roll : Z) : option bool :=
  if bool_decide (pos = -1) then Some (bool_decide (roll = 6))
  else
    let finish := MAIN_PATH_LEN + HOME_STRETCH_LEN - 1 in
    if bool_decide (pos >= MAIN_PATH_LEN) then
      Some (bool_decide (pos + roll <= finish))
    else
      entry ← HOME_ENTRY !! player_idx;
      let dist := dist_to_entry entry pos in
      if bool_decide (roll > dist) then
        let into := roll - dist - 1 in
        Some (bool_decide (into < HOME_STRETCH_LEN))
      else Some true.

(** [advance_position(pos, steps, player_idx)]. *)
Definition advance_position (pos steps : Z) (player_idx : nat) : option Z :=
  if bool_decide (pos = -1) then
    if bool_decide (steps = 6) then START_POSITIONS !! player_idx
    else Some (-1)
  else if bool_decide (pos >= MAIN_PATH_LEN) then
    let new := pos + steps in
    let finish := MAIN_PATH_LEN + HOME_STRETCH_LEN - 1 in
    Some (if bool_decide (new <= finish) then new else -1)
  else
    entry ← HOME_ENTRY !! player_idx;
    let dist := dist_to_entry entry pos in
    if bool_decide (steps > dist) then
      let into := steps - dist - 1 in
      let new := MAIN_PATH_LEN + into in
      Some (if bool_decide (new <= MAIN_PATH_LEN + HOME_STRETCH_LEN - 1)
            then new else -1)
    else Some ((pos + steps) `mod` MAIN_PATH_LEN).

(** The loop of [make_move] that fills [path]:
    [for step in range(1, roll+1)] asks [advance_position] for one step
    from the previous entry (from [token.pos] at the first step), leaves
    the loop when the answer is [-1], and appends the answer otherwise.
    [n] counts the iterations still to run. *)
Fixpoint path_from (n : nat) (cur : Z) (player : nat) : option (list Z) :=
  match n with
  | O => Some []
  | S k =>
      new ← advance_position cur 1 player;
      if bool_decide (new = -1) then Some []
      else rest ← path_from k new player; Some (new :: rest)
  end.

(** [range(1, roll+1)] runs [max roll 0] times. *)
Definition make_move_path (pos roll : Z) (player : nat) : option (list Z) :=
  path_from (Z.to_nat roll) pos player.

(** ** Game state *)

(** A callback handed to [root.after] or [canvas.after] and not yet run.
    - [CbNextTurn]: [self.root.after(.., self.next_turn)];
    - [CbAiRoll]: [self.root.after(500, self.ai_roll)];
    - [CbMakeMove p t]: [lambda: self.make_move(choice)], [choice] being
      token [t] of player [p];
    - [CbStepEnd p t rest roll]: the end of the drawing of one step inside
      [animate_move], for token [t] of player [p], with the entries still in
      [path_positions] and the [roll] captured by the closure [on_done].
      (The source arms one timer per drawn frame and one more before the
      next entry; none of them reads or writes game state before the next
      [animate_move] or [on_complete], so they are one callback here.) *)
Inductive callback :=
| CbNextTurn
| CbAiRoll
| CbMakeMove (p t : nat)
| CbStepEnd (p t : nat) (rest : list Z) (roll : Z).

(** A [messagebox.showinfo] call. *)
Inductive dialog :=
| DlgRollFirst
| DlgGameOver (p : nat).

(** The fields of [LudoGame] that the rules read or write.  [players]
    holds [players[p].tokens[t].pos]; a token is named by the pair of its
    [player] and [index] attributes, which [Player.__init__] sets to the
    place of the token in these lists. *)
Record Game := mkGame {
  players : list (list Z);
  current_player : nat;
  dice_roll : option Z;
  human_count : nat;
  num_players : nat;
  timers : list callback;
  dialogs : list dialog
}.

Definition set_players (ps : list (list Z)) (g : Game) : Game :=
  mkGame ps (current_player g) (dice_roll g) (human_count g)
         (num_players g) (timers g) (dialogs g).

Definition set_current_player (cp : nat) (g : Game) : Game :=
  mkGame (players g) cp (dice_roll g) (human_count g)
         (num_players g) (timers g) (dialogs g).

Definition set_dice_roll (d : option Z) (g : Game) : Game :=
  mkGame (players g) (current_player g) d (human_count g)
         (num_players g) (timers g) (dialogs g).

Definition set_timers (ts : list callback) (g : Game) : Game :=
  mkGame (players g) (current_player g) (dice_roll g) (human_count g)
         (num_players g) ts (dialogs g).

(** [root.after(ms, cb)]. *)
Definition after (cb : callback) (g : Game) : Game :=
  set_timers (timers g ++ [cb]) g.

Definition show (d : dialog) (g : Game) : Game :=
  mkGame (players g) (current_player g) (dice_roll g) (human_count g)
         (num_players g) (timers g) (d :: dialogs g).

(** [self.players[p].tokens[t].pos]. *)
Definition token_pos (g : Game) (p t : nat) : option Z :=
  toks ← players g !! p; toks !! t.

(** [token.pos = v] for token [t] of player [p]. *)
Definition set_pos (p t : nat) (v : Z) (g : Game) : Game :=
  set_players (alter (λ toks, <[t := v]> toks) p (players g)) g.

(** [LudoGame.init_players] after a setup dialog that chose [n] players,
    [h] of them human. *)
Definition init_players (n h : nat) : Game :=
  mkGame (replicate n (replicate TOKENS_PER_PLAYER (-1))) 0 None h n [] [].

(** ** Turn controller *)

(** [Player.movable_tokens(roll)]: the tokens of the list comprehension, by
    index, in the order of [self.tokens]. *)
Fixpoint movable_from (i : nat) (toks : list Z) (idx : nat) (roll : Z)
  : option (list nat) :=
  match toks with
  | [] => Some []
  | pos :: rest =>
      b ← can_move_token pos idx roll;
      ms ← movable_from (S i) rest idx roll;
      Some (if b : bool then i :: ms else ms)
  end.

Definition movable_tokens (toks : list Z) (idx : nat) (roll : Z)
  : option (list nat) :=
  movable_from 0 toks idx roll.

(** [LudoGame.update_ui]: apart from drawing, it schedules the AI's roll. *)
Definition update_ui (g : Game) : Game :=
  if bool_decide (human_count g ≤ current_player g)%nat
     && bool_decide (dice_roll g = None)
  then after CbAiRoll g else g.

(** [sum(1 for t in p.tokens if t.pos == MAIN_PATH_LEN + HOME_STRETCH_LEN - 1)]. *)
Definition finished (toks : list Z) : nat :=
  length (filter (λ pos, pos = MAIN_PATH_LEN + HOME_STRETCH_LEN - 1) toks).

(** The loop of [check_winner] over [enumerate(self.players)], from index
    [i]: the first player with [finished == TOKENS_PER_PLAYER]. *)
Fixpoint find_winner (i : nat) (ps : list (list Z)) : option nat :=
  match ps with
  | [] => None
  | toks :: rest =>
      if bool_decide (finished toks = TOKENS_PER_PLAYER) then Some i
      else find_winner (S i) rest
  end.

(** [LudoGame.check_winner]: its result and the state after its dialog. *)
Definition check_winner (g : Game) : bool * Game :=
  match find_winner 0 (players g) with
  | Some p => (true, show (DlgGameOver p) g)
  | None => (false, g)
  end.

(** [LudoGame.next_turn]; [%] raises on a zero [num_players]. *)
Definition next_turn (g : Game) : option Game :=
  let '(won, g1) := check_winner g in
  if won then Some g1
  else if bool_decide (num_players g1 = 0%nat) then None
  else
    Some (update_ui
            (set_dice_roll None
               (set_current_player
                  ((current_player g1 + 1) `mod` num_players g1)%nat g1))).

(** [LudoGame.check_capture(moved_token)], for token [t] of player [p]. *)
Definition check_capture (g : Game) (p t : nat) : option Game :=
  moved ← token_pos g p t;
  Some (set_players
          (imap (λ p_idx toks,
                   if bool_decide (p_idx = p) then toks
                   else (λ ot, if bool_decide (ot = moved ∧ ot < MAIN_PATH_LEN)
                               then -1 else ot) <$> toks)
                (players g)) g).

(** The closure [on_done] of [make_move], for token [t] of player [p] and
    the [roll] read when [make_move] started. *)
Definition on_done (g : Game) (p t : nat) (roll : Z) : option Game :=
  newpos ← token_pos g p t;
  g1 ← (if bool_decide (newpos >= 0 ∧ newpos < MAIN_PATH_LEN)
        then check_capture g p t else Some g);
  let g2 := set_dice_roll None g1 in
  if bool_decide (roll ≠ 6) then next_turn g2 else Some (update_ui g2).

(** [animate_move(canvas, token, path_positions, on_complete=on_done)] up
    to its first timer: with nothing left it calls [on_complete]; otherwise
    it pops the first entry, stores it in [token.pos] and starts drawing. *)
Definition animate_move (g : Game) (p t : nat) (path : list Z) (roll : Z)
  : option Game :=
  match path with
  | [] => on_done g p t roll
  | next_pos :: rest => Some (after (CbStepEnd p t rest roll) (set_pos p t next_pos g))
  end.

(** [LudoGame.make_move(token)]; [range(1, roll+1)] raises on a [None]
    roll. *)
Definition make_move (g : Game) (p t : nat) : option Game :=
  roll ← dice_roll g;
  old ← token_pos g p t;
  path ← make_move_path old roll p;
  animate_move g p t path roll.

(** [LudoGame.roll_dice]; [r] is the value of [random.randint(1,6)]. *)
Definition roll_dice (g : Game) (r : Z) : option Game :=
  match dice_roll g with
  | Some _ => Some g
  | None =>
      if bool_decide (human_count g ≤ current_player g)%nat then Some g
      else
        let g1 := set_dice_roll (Some r) g in
        toks ← players g1 !! current_player g1;
        movable ← movable_tokens toks (current_player g1) r;
        match movable with
        | [] => Some (after CbNextTurn (set_dice_roll None g1))
        | _ => Some (update_ui g1)
        end
  end.

(** The inner loops of [ai_roll]: some token of another player stands on
    [target] ([ot.pos == target and ot.pos < MAIN_PATH_LEN]). *)
Definition opponent_on (ps : list (list Z)) (me : nat) (target : Z) : bool :=
  existsb id
    (imap (λ p_idx toks,
             negb (bool_decide (p_idx = me))
             && existsb (λ ot, bool_decide (ot = target ∧ ot < MAIN_PATH_LEN)) toks)
          ps).

(** What the body of [for t in movable] decides for token [t]. *)
Definition captures (g : Game) (me : nat) (roll : Z) (t : nat) : option bool :=
  pos ← token_pos g me t;
  target ← advance_position pos roll me;
  Some (bool_decide (target >= 0 ∧ target < MAIN_PATH_LEN)
        && opponent_on (players g) me target).

(** The capture opportunity of the AI heuristic in the specification's
    words: the landing of token [t] of player [me] for [roll], as
    [advance_position] gives it, is a shared-track cell [0..51] on which a
    token of another player stands.  [captures_spec] below shows that the
    loop body decides it. *)
Definition capture_move (g : Game) (me : nat) (roll : Z) (t : nat) : Prop :=
  ∃ pos target q u,
    token_pos g me t = Some pos ∧
    advance_position pos roll me = Some target ∧
    0 <= target <= 51 ∧
    q ≠ me ∧ token_pos g q u = Some target.

(** The outer loop of [ai_roll]: [choice] is the first token of [movable]
    for which the body finds an opposing token, if there is one. *)
Fixpoint capture_choice (g : Game) (me : nat) (roll : Z) (movable : list nat)
  : option (option nat) :=
  match movable with
  | [] => Some None
  | t :: rest =>
      b ← captures g me roll t;
      if b : bool then Some (Some t) else capture_choice g me roll rest
  end.

(** [LudoGame.ai_roll]; [r] is the value of [random.randint(1,6)] and [c]
    selects the element that [random.choice(movable)] returns. *)
Definition ai_roll (g : Game) (r : Z) (c : nat) : option Game :=
  let g1 := set_dice_roll (Some r) g in
  toks ← players g1 !! current_player g1;
  movable ← movable_tokens toks (current_player g1) r;
  match movable with
  | [] => Some (after CbNextTurn (set_dice_roll None g1))
  | _ =>
      choice ← capture_choice g1 (current_player g1) r movable;
      t ← match choice with
           | Some t => Some t
           | None => movable !! (c `mod` length movable)%nat
           end;
      Some (after (CbMakeMove (current_player g1) t) g1)
  end.

(** [LudoGame.on_token_clicked(event)].  [data] is what
    [event.__dict__.get('data')] finds: [None] for an event that carries
    no [data] attribute (or an empty one), on which the handler returns at
    once ([if not data: return]); [Some (p_idx, t_idx)] for the string that
    [Token.on_click] attaches, [f'{self.player},{self.index}'], as
    [map(int, data.split(','))] reads it. *)
Definition on_token_clicked (g : Game) (data : option (nat * nat))
  : option Game :=
  match data with
  | None => Some g
  | Some (p_idx, t_idx) =>
      if bool_decide (p_idx ≠ current_player g) then Some g
      else
        match dice_roll g with
        | None => Some (show DlgRollFirst g)
        | Some roll =>
            pos ← token_pos g p_idx t_idx;
            b ← can_move_token pos p_idx roll;
            if b : bool then make_move g p_idx t_idx else Some g
        end
  end.

(** ** Events *)

(** What the Tk main loop can deliver: a press of the roll button, a
    [<<TokenClicked>>] event with the [data] that the handler finds on it,
    or the [k]-th scheduled callback coming due.  [r] and [c] are the
    random draws of the handler, if it makes any. *)
Inductive event :=
| RollClick (r : Z)
| TokenClick (data : option (nat * nat))
| Fire (k : nat) (r : Z) (c : nat).

Definition fire (cb : callback) (r : Z) (c : nat) (g : Game) : option Game :=
  match cb with
  | CbNextTurn => next_turn g
  | CbAiRoll => ai_roll g r c
  | CbMakeMove p t => make_move g p t
  | CbStepEnd p t rest roll => animate_move g p t rest roll
  end.

Definition step (g : Game) (e : event) : option Game :=
  match e with
  | RollClick r => roll_dice g r
  | TokenClick data => on_token_clicked g data
  | Fire k r c =>
      match timers g !! k with
      | None => Some g
      | Some cb => fire cb r c (set_timers (delete k (timers g)) g)
      end
  end.

Fixpoint run (es : list event) (g : Game) : option Game :=
  match es with
  | [] => Some g
  | e :: es' => g' ← step g e; run es' g'
  end.

(** ** Path model *)

(** The module-level coordinate tables.  Python computes them in floating
    point; here the same expressions are taken over the rationals, which is
    enough to tell which cell a table is built from and how many points it
    holds. *)
Module Board.

Definition WINDOW_SIZE : Z := 760.
Definition BOARD_SIZE : Z := 620.
Definition MARGIN : Z := (WINDOW_SIZE - BOARD_SIZE) `div` 2.

Definition point : Type := Q * Q.

(** The inner function [pix(r,c)] of [build_path_coords]. *)
Definition pix (r c : Z) : point :=
  (inject_Z MARGIN + inject_Z c * (inject_Z BOARD_SIZE / 14),
   inject_Z MARGIN + inject_Z r * (inject_Z BOARD_SIZE / 14))%Q.

Definition cells : list (Z * Z) :=
  [ (6,0);(6,1);(6,2);(6,3);(6,4);(6,5);
    (5,6);(4,6);(3,6);(2,6);(1,6);(0,6);(0,7);
    (0,8);(1,8);(2,8);(3,8);(4,8);(5,8);
    (6,9);(6,10);(6,11);(6,12);(6,13);(6,14);
    (7,14);(8,14);(8,13);(8,12);(8,11);(8,10);(8,9);
    (9,8);(10,8);(11,8);(12,8);(13,8);(14,8);(14,7);
    (14,6);(13,6);(12,6);(11,6);(10,6);(9,6);(8,6) ].

(** [while len(coords) < MAIN_PATH_LEN: coords.append(coords[-1])], run
    for the [n] entries that are missing. *)
Fixpoint pad (n : nat) (coords : list point) : option (list point) :=
  match n with
  | O => Some coords
  | S k => lst ← last coords; pad k (coords ++ [lst])
  end.

(** [build_path_coords()]. *)
Definition build_path_coords : option (list point) :=
  let coords := (λ rc : Z * Z, pix rc.1 rc.2) <$> cells in
  coords' ← pad (Z.to_nat MAIN_PATH_LEN - length coords) coords;
  Some (take (Z.to_nat MAIN_PATH_LEN) coords').

Definition PATH_COORDS : list point := default [] build_path_coords.

Definition CENTER : point :=
  (inject_Z MARGIN + inject_Z BOARD_SIZE / 2,
   inject_Z MARGIN + inject_Z BOARD_SIZE / 2)%Q.

(** The body of [for i in range(HOME_STRETCH_LEN)] for a segment that
    starts at [s]: the points at [t = (i+1)/HOME_STRETCH_LEN] of the way
    from [s] to [CENTER]. *)
Definition home_stretch_from (s : point) : list point :=
  (λ i : nat,
     let t := ((inject_Z (Z.of_nat i) + 1) / inject_Z HOME_STRETCH_LEN)%Q in
     (s.1 + (CENTER.1 - s.1) * t, s.2 + (CENTER.2 - s.2) * t)%Q)
  <$> seq 0 (Z.to_nat HOME_STRETCH_LEN).

(** [HOME_COORDS[p]]; the dictionary has the keys [0..3]. *)
Definition HOME_COORDS (p : nat) : option (list point) :=
  if bool_decide (p < 4)%nat then
    start ← START_POSITIONS !! p;
    s ← PATH_COORDS !! Z.to_nat start;
    Some (home_stretch_from s)
  else None.

(** Equality of two points as rationals. *)
Definition point_eqb (a b : point) : bool :=
  Qeq_bool a.1 b.1 && Qeq_bool a.2 b.2.

End Board.

(** ** Drawing a token *)

Module Draw.
Import Board.

Definition CELL : Z := BOARD_SIZE `div` 15.

(** [self.radius = CELL*0.4]. *)
Definition radius : Q := (inject_Z CELL * (4 # 10))%Q.

(** Python's [l[i]] for an [int] index: a negative index counts from the
    end, and an index outside [-len(l) .. len(l)-1] raises [IndexError]. *)
Definition py_index {A} (l : list A) (i : Z) : option A :=
  if bool_decide (0 <= i) then l !! Z.to_nat i
  else if bool_decide (- Z.of_nat (length l) <= i)
       then l !! Z.to_nat (Z.of_nat (length l) + i)
       else None.

(** [Player.base_pos], which [Player.__init__] takes from
    [PATH_COORDS[START_POSITIONS[idx]]]. *)
Definition base_pos (idx : nat) : option point :=
  start ← START_POSITIONS !! idx; py_index PATH_COORDS start.

(** [Token.get_draw_coord], for the token with the attributes [player],
    [index] and [pos]. *)
Definition get_draw_coord (player index : nat) (pos : Z) : option point :=
  if bool_decide (pos = -1) then
    b ← base_pos player;
    let offset_x := (inject_Z (Z.of_nat index `mod` 2) * (radius * (16 # 10))
                     - radius * (8 # 10))%Q in
    let offset_y := (inject_Z (Z.of_nat index `div` 2) * (radius * (16 # 10))
                     - radius * (8 # 10))%Q in
    Some (b.1 + offset_x, b.2 + offset_y)%Q
  else if bool_decide (pos >= 0 ∧ pos < MAIN_PATH_LEN) then
    py_index PATH_COORDS pos
  else
    let home_idx := pos - MAIN_PATH_LEN in
    hx ← HOME_COORDS player; py_index hx home_idx.

End Draw.

(** ** Well-formed games *)

(** A position of the data model: base, shared track or home stretch. *)
Definition valid_pos (pos : Z) : Prop := pos = -1 ∨ 0 <= pos <= 57.

(** The shape that [init_players] sets up and every handler keeps: 2 to 4
    players as [num_players] says, four tokens each, every token on a
    position of the data model, and an existing player to move. *)
Definition wf_game (g : Game) : bool :=
  bool_decide (length (players g) = num_players g)
  && bool_decide (2 ≤ num_players g ≤ 4)%nat
  && bool_decide (current_player g < num_players g)%nat
  && forallb (λ toks, bool_decide (length toks = TOKENS_PER_PLAYER)
                      && forallb (λ pos, bool_decide (valid_pos pos)) toks)
             (players g).

(** A game that waits for the roll of the player to move: well formed, no
    roll pending, and nothing scheduled but, for an AI player, the
    [ai_roll] that [update_ui] arms. *)
Definition awaiting_roll (g : Game) : Prop :=
  wf_game g = true ∧ dice_roll g = None ∧
  timers g = if bool_decide (current_player g < human_count g)%nat
             then [] else [CbAiRoll].

(** The first two events of a turn with roll [roll]: a human player
    presses the button and clicks token [t]; for an AI player the scheduled
    [ai_roll] comes due, and then the [make_move] that it scheduled. *)
Definition turn_start (g : Game) (roll : Z) (t : nat) (c : nat) : list event :=
  if bool_decide (current_player g < human_count g)%nat
  then [RollClick roll; TokenClick (Some (current_player g, t))]
  else [Fire 0 roll c; Fire 0 roll c].

(** The events of a roll that finds no token to move: the roll itself (the
    button for a human player, the scheduled [ai_roll] for an AI player)
    and then the [next_turn] that the handler has deferred. *)
Definition turn_skipped (g : Game) (roll : Z) (c : nat) : list event :=
  if bool_decide (current_player g < human_count g)%nat
  then [RollClick roll; Fire 0 roll c]
  else [Fire 0 roll c; Fire 0 roll c].


(** The situation in which [next_turn] finds a winner and returns without
    passing the turn: the player to move has all tokens on 57, no roll is
    pending, and nothing but deferred [next_turn] and [ai_roll] calls is
    scheduled (no move is in flight). *)
Definition settled (g : Game) : Prop :=
  wf_game g = true ∧ dice_roll g = None ∧
  (∃ toks, players g !! current_player g = Some toks
           ∧ Forall (λ pos, pos = 57) toks) ∧
  Forall (λ cb, cb = CbNextTurn ∨ cb = CbAiRoll) (timers g).

(** The requests that the handlers turn down: a roll while a roll is
    pending or while an AI player is to move; a click whose event carries
    no data; a click on a token of a player who is not to move, a click
    with no roll pending, and a click on a token that [can_move_token]
    rejects for the pending roll. *)
Inductive rejected (g : Game) : event → Prop :=
| rej_roll_pending r d :
    dice_roll g = Some d → rejected g (RollClick r)
| rej_roll_ai_turn r :
    (human_count g ≤ current_player g)%nat → rejected g (RollClick r)
| rej_click_no_data :
    rejected g (TokenClick None)
| rej_click_other_player p t :
    p ≠ current_player g → rejected g (TokenClick (Some (p, t)))
| rej_click_no_roll t :
    dice_roll g = None → rejected g (TokenClick (Some (current_player g, t)))
| rej_click_not_legal t roll pos :
    dice_roll g = Some roll →
    token_pos g (current_player g) t = Some pos →
    can_move_token pos (current_player g) roll = Some false →
    rejected g (TokenClick (Some (current_player g, t))).

(** No animation is in progress: nothing scheduled is the end of a drawn
    step. *)
Definition no_step_pending (g : Game) : Prop :=
  Forall (λ cb, match cb with CbStepEnd _ _ _ _ => False | _ => True end)
         (timers g).


(** Every token of every player is in base. *)
Definition all_in_base (g : Game) : Prop :=
  Forall (Forall (λ pos, pos = -1)) (players g).

(** Player [p] has every token on the finish cell 57. *)
Definition all_finished (g : Game) (p : nat) : Prop :=
  ∃ toks, players g !! p = Some toks ∧ Forall (λ pos, pos = 57) toks.

(** No win has been announced: every dialog shown so far is the request
    to roll first. *)
Definition no_win_declared (g : Game) : Prop :=
  Forall (λ d, d = DlgRollFirst) (dialogs g).


(** A game that has been won.  The code keeps no game-over flag; a won
    game is a [settled] game, the state that a winning move leaves behind,
    or, in a game played from the start, any state in which some player
    has all four tokens on 57. *)
Inductive won (g : Game) : Prop :=
| won_settled :
    settled g → won g
| won_in_play n h es p :
    run es (init_players n h) = Some g → all_finished g p → won g.

(** The number of single steps that separate a token on the board from
    the finish cell 57: what is left of the home stretch, or the distance
    to the entry cell and the whole home stretch after it. *)
Definition remaining (entry pos : Z) : Z :=
  if bool_decide (pos >= MAIN_PATH_LEN)
  then MAIN_PATH_LEN + HOME_STRETCH_LEN - 1 - pos
  else dist_to_entry entry pos + HOME_STRETCH_LEN.

(** A scheduled callback carries only positions of the data model. *)
Definition timer_ok (cb : callback) : Prop :=
  match cb with
  | CbStepEnd _ _ rest _ => Forall valid_pos rest
  | _ => True
  end.

(** A well-formed game whose animations in flight will store only
    positions of the data model. *)
Definition sound (g : Game) : Prop :=
  wf_game g = true ∧ Forall timer_ok (timers g).

(** [k] calls of [next_turn] in a row. *)
Fixpoint next_turns (k : nat) (g : Game) : option Game :=
  match k with
  | O => Some g
  | S k' => g' ← next_turn g; next_turns k' g'
  end.

(** No callback of the AI is scheduled. *)
Definition no_ai_pending (g : Game) : Prop :=
  Forall (λ cb, match cb with
                | CbAiRoll | CbMakeMove _ _ => False
                | _ => True
                end) (timers g).

(** A request of the person at the screen: a press of the roll button, or
    a click on one of the four tokens of some player, whether or not the
    event carries the token. *)
Definition human_request (e : event) : Prop :=
  match e with
  | RollClick _ => True
  | TokenClick (Some (_, t)) => (t < TOKENS_PER_PLAYER)%nat
  | TokenClick None => True
  | Fire _ _ _ => False
  end.

(** No shared-track cell holds tokens of two players. *)
Definition exclusive (g : Game) : Prop :=
  ∀ q u q' u' cell,
    token_pos g q u = Some cell → token_pos g q' u' = Some cell →
    0 <= cell <= 51 → q = q'.

(** * Movement engine: proofs *)

Lemma HOME_ENTRY_range p entry :
  HOME_ENTRY !! p = Some entry → 0 <= entry < 52.
Proof.
  do 4 (destruct p as [|p]; [intros [= <-]; lia|]). discriminate.
Qed.

Lemma START_POSITIONS_range p start :
  START_POSITIONS !! p = Some start → 0 <= start < 52.
Proof.
  do 4 (destruct p as [|p]; [intros [= <-]; lia|]). discriminate.
Qed.

Lemma tables_same_keys p :
  is_Some (HOME_ENTRY !! p) ↔ is_Some (START_POSITIONS !! p).
Proof.
  rewrite !lookup_lt_is_Some. reflexivity.
Qed.

Lemma dist_to_entry_forward entry pos :
  0 <= entry < 52 → 0 <= pos < 52 →
  dist_to_entry entry pos = forward_distance entry pos.
Proof.
  intros He Hp. unfold dist_to_entry, forward_distance, MAIN_PATH_LEN.
  case_bool_decide.
  - rewrite Z.mod_small; lia.
  - replace (entry - pos) with ((52 - (pos - entry)) + (-1) * 52) by lia.
    rewrite Z.mod_add by lia. rewrite Z.mod_small; lia.
Qed.

Lemma dist_to_entry_range entry pos :
  0 <= entry < 52 → 0 <= pos < 52 → 0 <= dist_to_entry entry pos < 52.
Proof.
  intros He Hp. unfold dist_to_entry, MAIN_PATH_LEN. case_bool_decide; lia.
Qed.

(** C3. [can_move_token] answers: from base, true iff the roll is 6; in the
    home stretch, true iff [pos + roll <= 57]; on the shared track, with the
    distance to the player's entry cell taken forward modulo 52, true when
    the roll does not exceed the distance, and otherwise true iff the
    home-stretch offset [roll - dist - 1] is below 6. *)
Theorem can_move_token_cases (pos roll : Z) (p : nat) (entry : Z) :
  HOME_ENTRY !! p = Some entry →
  ∃ legal,
    can_move_token pos p roll = Some legal ∧
    (pos = -1 → (legal = true ↔ roll = 6)) ∧
    (pos >= 52 → (legal = true ↔ pos + roll <= 57)) ∧
    (0 <= pos < 52 →
       let dist := dist_to_entry entry pos in
       dist = forward_distance entry pos ∧
       (roll <= dist → legal = true) ∧
       (roll > dist → (legal = true ↔ roll - dist - 1 < 6))).
Proof.
  intros He. pose proof (HOME_ENTRY_range _ _ He) as Hr.
  unfold can_move_token, MAIN_PATH_LEN, HOME_STRETCH_LEN. rewrite He. simpl.
  repeat case_bool_decide; eexists; (split; [reflexivity|]);
    repeat split; intros; try lia; try done;
    try (apply dist_to_entry_forward; lia);
    try (pose proof (dist_to_entry_range entry pos); lia).
Qed.

Lemma can_move_token_cases_witness :
  ∃ legal,
    can_move_token 50 0 3 = Some legal ∧
    (50 = -1 → (legal = true ↔ 3 = 6)) ∧
    (50 >= 52 → (legal = true ↔ 50 + 3 <= 57)) ∧
    (0 <= 50 < 52 →
       let dist := dist_to_entry 51 50 in
       dist = forward_distance 51 50 ∧
       (3 <= dist → legal = true) ∧
       (3 > dist → (legal = true ↔ 3 - dist - 1 < 6))).
Proof. apply (can_move_token_cases 50 3 0 51). reflexivity. Defined.

(** C2. For a position of the data model and a roll in [1..6],
    [advance_position] returns [-1] exactly when [can_move_token] says no;
    a legal move lands on the start cell from base, on [pos + roll] in the
    home stretch, and on the shared track, with the distance to the
    player's entry cell taken forward modulo 52, on [(pos + roll) mod 52]
    while the roll does not exceed that distance and on
    [52 + (roll - distance - 1)] otherwise; the landing of a legal move is
    always a position in [0..57]. *)
Theorem advance_position_agrees (pos roll : Z) (p : nat) (entry start : Z) :
  HOME_ENTRY !! p = Some entry →
  START_POSITIONS !! p = Some start →
  pos = -1 ∨ 0 <= pos <= 57 →
  1 <= roll <= 6 →
  ∃ new legal,
    advance_position pos roll p = Some new ∧
    can_move_token pos p roll = Some legal ∧
    (new = -1 ↔ legal = false) ∧
    (legal = true →
       (pos = -1 → new = start) ∧
       (pos >= 52 → new = pos + roll) ∧
       (0 <= pos < 52 → roll <= forward_distance entry pos →
          new = (pos + roll) `mod` 52) ∧
       (0 <= pos < 52 → roll > forward_distance entry pos →
          new = 52 + (roll - forward_distance entry pos - 1)) ∧
       0 <= new <= 57).
Proof.
  intros He Hs Hpos Hroll.
  pose proof (HOME_ENTRY_range _ _ He) as Hre.
  pose proof (START_POSITIONS_range _ _ Hs) as Hrs.
  assert (0 <= pos < 52 →
          forward_distance entry pos = dist_to_entry entry pos) as Hfd.
  { intros Htrack. symmetry. by apply dist_to_entry_forward. }
  unfold advance_position, can_move_token, MAIN_PATH_LEN, HOME_STRETCH_LEN.
  rewrite He, Hs. simpl.
  pose proof (dist_to_entry_range entry pos Hre) as Hd.
  pose proof (Z.mod_pos_bound (pos + roll) 52 ltac:(lia)) as Hm.
  repeat case_bool_decide;
    (do 2 eexists; do 2 (split; [reflexivity|]);
     repeat split; intros; try rewrite Hfd in * by done;
     try lia; try done).
Qed.

Lemma advance_position_agrees_witness :
  ∃ new legal,
    advance_position 50 3 0 = Some new ∧
    can_move_token 50 0 3 = Some legal ∧
    (new = -1 ↔ legal = false) ∧
    (legal = true →
       (50 = -1 → new = 0) ∧
       (50 >= 52 → new = 50 + 3) ∧
       (0 <= 50 < 52 → 3 <= forward_distance 51 50 →
          new = (50 + 3) `mod` 52) ∧
       (0 <= 50 < 52 → 3 > forward_distance 51 50 →
          new = 52 + (3 - forward_distance 51 50 - 1)) ∧
       0 <= new <= 57).
Proof.
  apply (advance_position_agrees 50 3 0 51 0);
    [reflexivity | reflexivity | lia | lia].
Defined.

(** Scenarios 1 and 2 of the specification. *)
Example scenario_1_release :
  can_move_token (-1) 0 6 = Some true ∧ advance_position (-1) 6 0 = Some 0.
Proof. done. Qed.

Example scenario_2_enter_home_stretch :
  dist_to_entry 51 50 = 1 ∧ advance_position 50 3 0 = Some 53 ∧
  make_move_path 50 3 0 = Some [51; 52; 53].
Proof. done. Qed.

(** ** The path of [make_move] *)

(** One step, then [s] more, is [s + 1] steps, for a token on the board. *)
Lemma advance_position_succ (pos s new : Z) (p : nat) :
  is_Some (HOME_ENTRY !! p) →
  0 <= pos <= 57 → 1 <= s →
  advance_position pos 1 p = Some new → new ≠ -1 →
  0 <= new <= 57 ∧ advance_position pos (s + 1) p = advance_position new s p.
Proof.
  intros [entry He] Hpos Hs.
  pose proof (HOME_ENTRY_range _ _ He) as Hre.
  unfold advance_position, MAIN_PATH_LEN, HOME_STRETCH_LEN.
  rewrite He. simpl.
  rewrite (bool_decide_eq_false_2 (pos = -1)) by lia.
  case_bool_decide as Hhome.
  { intros [= <-] Hnew. case_bool_decide; [|done].
    rewrite (bool_decide_eq_false_2 (pos + 1 = -1)) by lia.
    rewrite (bool_decide_eq_true_2 (pos + 1 >= 52)) by lia.
    split; [lia|]. repeat case_bool_decide; f_equal; lia. }
  assert (0 <= pos < 52) as Htrack by lia.
  replace (pos + (s + 1)) with (pos + 1 + s) by lia.
  assert ((pos + 1) `mod` 52 = pos + 1 ∧ pos < 51
          ∨ (pos + 1) `mod` 52 = 0 ∧ pos = 51) as [[-> Hlt]|[-> ->]].
  { destruct (decide (pos = 51)) as [->|]; [right; done|left].
    rewrite Z.mod_small; lia. }
  all: unfold dist_to_entry, MAIN_PATH_LEN.
  all: intros Hnew Hne; revert Hnew.
  all: repeat case_bool_decide; intros [= <-]; try lia; try done.
  all: split; [lia|]; repeat case_bool_decide; try lia; try done.
  all: try (f_equal; lia).
  all: f_equal; replace (51 + 1 + s) with (0 + s + 1 * 52) by lia.
  all: by rewrite Z.mod_add.
Qed.

Lemma advance_position_legal (pos roll : Z) (p : nat) :
  is_Some (HOME_ENTRY !! p) →
  0 <= pos <= 57 → 1 <= roll →
  can_move_token pos p roll = Some true →
  ∃ r, advance_position pos roll p = Some r ∧ 0 <= r <= 57.
Proof.
  intros [entry He] Hpos Hroll.
  pose proof (HOME_ENTRY_range _ _ He) as Hre.
  unfold advance_position, can_move_token, MAIN_PATH_LEN, HOME_STRETCH_LEN.
  rewrite He. simpl.
  pose proof (dist_to_entry_range entry pos Hre) as Hd.
  pose proof (Z.mod_pos_bound (pos + roll) 52 ltac:(lia)) as Hm.
  repeat case_bool_decide; intros ?; simplify_eq; try lia;
    (eexists; split; [reflexivity|lia]).
Qed.

(** When [s + 1] steps lead somewhere, so does the first of them. *)
Lemma advance_position_first (pos s r : Z) (p : nat) :
  is_Some (HOME_ENTRY !! p) →
  0 <= pos <= 57 → 0 <= s →
  advance_position pos (s + 1) p = Some r → r ≠ -1 →
  ∃ new, advance_position pos 1 p = Some new ∧ new ≠ -1.
Proof.
  intros [entry He] Hpos Hs.
  pose proof (HOME_ENTRY_range _ _ He) as Hre.
  unfold advance_position, MAIN_PATH_LEN, HOME_STRETCH_LEN.
  rewrite He. simpl.
  pose proof (Z.mod_pos_bound (pos + 1) 52 ltac:(lia)) as Hm.
  repeat case_bool_decide; intros ? Hr; simplify_eq; try lia;
    (eexists; split; [reflexivity|lia]).
Qed.

(** The on-board part of the path claim: for a token on the track or in
    the home stretch whose move of [n + 1] steps has a landing, the loop of
    [make_move] yields [n + 1] entries, entry [i] is where [i + 1] steps
    lead, and the last entry is the landing. *)
Lemma path_from_on_board (p : nat) :
  is_Some (HOME_ENTRY !! p) →
  ∀ (n : nat) (pos r : Z),
    0 <= pos <= 57 →
    advance_position pos (Z.of_nat (S n)) p = Some r → r ≠ -1 →
    ∃ path,
      path_from (S n) pos p = Some path ∧
      length path = S n ∧
      last path = Some r ∧
      Forall (λ x, 0 <= x <= 57) path ∧
      ∀ i, (i < S n)%nat →
           path !! i = advance_position pos (Z.of_nat (S i)) p.
Proof.
  intros He. induction n as [|n IH]; intros pos r Hpos Hadv Hr.
  - exists [r]. cbn [path_from].
    assert (advance_position pos 1 p = Some r) as Hadv' by exact Hadv.
    rewrite Hadv'. simpl. rewrite bool_decide_eq_false_2 by done.
    repeat split; try done.
    + constructor; [|constructor].
      destruct (advance_position_succ pos 1 r p He Hpos ltac:(lia) Hadv' Hr).
      done.
    + intros [|i] Hi; [by rewrite Hadv| lia].
  - replace (Z.of_nat (S (S n))) with (Z.of_nat (S n) + 1) in Hadv by lia.
    destruct (advance_position_first pos (Z.of_nat (S n)) r p He Hpos ltac:(lia) Hadv Hr)
      as (new & Hnew & Hne).
    destruct (advance_position_succ pos (Z.of_nat (S n)) new p He Hpos
                ltac:(lia) Hnew Hne) as [Hvalid Heq].
    rewrite Heq in Hadv.
    destruct (IH new r Hvalid Hadv Hr) as (path & Hp & Hlen & Hlast & Hall & Hidx).
    exists (new :: path).
    change (path_from (S (S n)) pos p)
      with (new ← advance_position pos 1 p;
            if bool_decide (new = -1) then Some []
            else rest ← path_from (S n) new p; Some (new :: rest)).
    rewrite Hnew. cbn [mbind option_bind].
    rewrite bool_decide_eq_false_2 by done.
    rewrite Hp. cbn [mbind option_bind]. repeat split.
    + simpl. by rewrite Hlen.
    + destruct path; [done|]. by rewrite last_cons_cons.
    + by constructor.
    + intros [|i] Hi; [symmetry; exact Hnew|].
      simpl. rewrite Hidx by lia.
      replace (Z.of_nat (S (S i))) with (Z.of_nat (S i) + 1) by lia.
      symmetry.
      by destruct (advance_position_succ pos (Z.of_nat (S i)) new p He Hpos
                     ltac:(lia) Hnew Hne).
Qed.

(** From base the loop of [make_move] asks [advance_position] for ONE
    step, which from [-1] is answered [-1] whatever the player, so the loop
    is left at once. *)
Lemma path_from_base_empty (p : nat) (roll : Z) :
  make_move_path (-1) roll p = Some [].
Proof. unfold make_move_path. by destruct (Z.to_nat roll). Qed.

(** C1, its base-release part on the code.  The path that [make_move]
    builds for a token in base is empty for every roll, the releasing 6
    included, although [can_move_token] allows that move and
    [advance_position] lands it on the start cell: the path is not the
    single entry [START_POSITIONS[p]]. *)
Theorem make_move_path_from_base (p : nat) (roll : Z) :
  make_move_path (-1) roll p = Some [] ∧
  can_move_token (-1) p 6 = Some true ∧
  advance_position (-1) 6 p = START_POSITIONS !! p.
Proof. split; [apply path_from_base_empty|done]. Qed.

(** On the board the path is the chain the claim describes. *)
Lemma make_move_path_on_board (pos roll : Z) (p : nat) :
  is_Some (HOME_ENTRY !! p) →
  0 <= pos <= 57 → 1 <= roll →
  can_move_token pos p roll = Some true →
  ∃ path r,
    make_move_path pos roll p = Some path ∧
    advance_position pos roll p = Some r ∧
    Z.of_nat (length path) = roll ∧
    last path = Some r ∧
    Forall (λ x, 0 <= x <= 57) path ∧
    ∀ i, (i < length path)%nat →
         path !! i = advance_position pos (Z.of_nat (S i)) p.
Proof.
  intros He Hpos Hroll Hlegal.
  destruct (advance_position_legal _ _ _ He Hpos Hroll Hlegal) as (r & Hr & Hrr).
  unfold make_move_path.
  destruct (Z.to_nat roll) as [|n] eqn:Hn; [lia|].
  assert (roll = Z.of_nat (S n)) as -> by lia.
  destruct (path_from_on_board p He n pos r Hpos Hr ltac:(lia))
    as (path & Hp & Hlen & Hlast & Hall & Hidx).
  exists path, r. rewrite Hlen. repeat split; try done. 
Qed.

(** * Turn controller: proofs *)

(** ** What the handlers leave alone *)

Lemma players_update_ui g : players (update_ui g) = players g.
Proof. unfold update_ui. by destruct (_ && _). Qed.

Lemma current_player_update_ui g :
  current_player (update_ui g) = current_player g.
Proof. unfold update_ui. by destruct (_ && _). Qed.

Lemma dice_roll_update_ui g : dice_roll (update_ui g) = dice_roll g.
Proof. unfold update_ui. by destruct (_ && _). Qed.

Lemma update_ui_human g :
  (current_player g < human_count g)%nat → update_ui g = g.
Proof.
  intros Hh. unfold update_ui.
  rewrite (bool_decide_eq_false_2 (human_count g ≤ current_player g)%nat) by lia.
  done.
Qed.

Lemma players_next_turn g g' : next_turn g = Some g' → players g' = players g.
Proof.
  unfold next_turn, check_winner.
  destruct (find_winner 0 (players g)); [by intros [= <-]|].
  case_bool_decide; [done|]. intros [= <-]. by rewrite players_update_ui.
Qed.

Lemma token_pos_players g g' :
  players g' = players g → ∀ p t, token_pos g' p t = token_pos g p t.
Proof. intros Heq p t. unfold token_pos. by rewrite Heq. Qed.

(** ** Capture resolution *)

Lemma token_pos_check_capture g p t moved g' :
  token_pos g p t = Some moved →
  check_capture g p t = Some g' →
  ∀ q u,
    token_pos g' q u =
    (λ old, if bool_decide (q ≠ p ∧ old = moved ∧ old < MAIN_PATH_LEN)
            then -1 else old) <$> token_pos g q u.
Proof.
  intros Hm. unfold check_capture. rewrite Hm. intros [= <-] q u.
  unfold token_pos. simpl. rewrite list_lookup_imap.
  destruct (players g !! q) as [toks|]; [|done]. simpl.
  case_bool_decide as Hq.
  - subst q. destruct (toks !! u) as [old|]; [|done]. simpl.
    rewrite bool_decide_eq_false_2; [done|]. intros [? _]. done.
  - rewrite list_lookup_fmap. destruct (toks !! u) as [old|]; [|done]. simpl.
    f_equal.
    destruct (decide (old = moved ∧ old < MAIN_PATH_LEN)) as [Hy|Hn].
    + rewrite !bool_decide_eq_true_2; [done|by split|done].
    + rewrite !bool_decide_eq_false_2; [done|intros (? & ? & ?); by apply Hn|done].
Qed.

(** What a returning [on_done] has done to the positions, the moved
    token standing on [pos]. *)
Lemma on_done_positions (g g' : Game) (p t : nat) (roll pos : Z) :
  token_pos g p t = Some pos →
  on_done g p t roll = Some g' →
  ∀ q u,
    token_pos g' q u =
    (λ old, if bool_decide (q ≠ p ∧ old = pos ∧ 0 <= pos <= 51)
            then -1 else old) <$> token_pos g q u.
Proof.
  intros Hpos. unfold on_done. rewrite Hpos. cbn [mbind option_bind].
  destruct (bool_decide (pos >= 0 ∧ pos < MAIN_PATH_LEN)) eqn:Htrack.
  - apply bool_decide_eq_true in Htrack.
    destruct (check_capture g p t) as [g1|] eqn:Hc; cbn [mbind option_bind];
      [|done].
    intros Hnext q u.
    assert (players g' = players g1) as Hpl.
    { destruct (bool_decide (roll ≠ 6)).
      - by rewrite (players_next_turn _ _ Hnext).
      - injection Hnext as <-. by rewrite players_update_ui. }
    rewrite (token_pos_players _ _ Hpl).
    rewrite (token_pos_check_capture _ _ _ _ _ Hpos Hc).
    destruct (token_pos g q u) as [old|]; [|done]. simpl. f_equal.
    unfold MAIN_PATH_LEN in *.
    destruct (decide (q ≠ p ∧ old = pos)) as [[Hq ->]|Hn].
    + rewrite !bool_decide_eq_true_2; [done|split_and!; try done; lia..].
    + rewrite !bool_decide_eq_false_2; [done|intros (? & ? & ?); by apply Hn..].
  - apply bool_decide_eq_false in Htrack.
    cbn [mbind option_bind]. intros Hnext q u.
    assert (players g' = players g) as Hpl.
    { destruct (bool_decide (roll ≠ 6)).
      - by rewrite (players_next_turn _ _ Hnext).
      - injection Hnext as <-. by rewrite players_update_ui. }
    rewrite (token_pos_players _ _ Hpl).
    destruct (token_pos g q u) as [old|]; [|done]. simpl. f_equal.
    unfold MAIN_PATH_LEN in *.
    rewrite bool_decide_eq_false_2; [done|]. lia.
Qed.

(** ** The legal set *)

Lemma movable_from_spec (idx : nat) (roll : Z) :
  ∀ toks i ms,
    movable_from i toks idx roll = Some ms →
    ∀ t, t ∈ ms ↔
         ∃ pos, (i ≤ t)%nat ∧ toks !! (t - i)%nat = Some pos ∧
                can_move_token pos idx roll = Some true.
Proof.
  induction toks as [|pos toks IH]; intros i ms Hm t.
  - injection Hm as <-. split; [by intros ?%elem_of_nil|].
    by intros (? & _ & ? & _).
  - cbn [movable_from] in Hm.
    destruct (can_move_token pos idx roll) as [b|] eqn:Hb; [|done].
    cbn [mbind option_bind] in Hm.
    destruct (movable_from (S i) toks idx roll) as [ms'|] eqn:Hms; [|done].
    cbn [mbind option_bind] in Hm. injection Hm as <-.
    specialize (IH (S i) ms' Hms t).
    assert (t ∈ ms' ↔
            ∃ pos', (i < t)%nat ∧ (pos :: toks) !! (t - i)%nat = Some pos' ∧
                    can_move_token pos' idx roll = Some true) as IH'.
    { rewrite IH. split; intros (pos' & Hle & Hl & Hc); exists pos';
        (split; [lia|]); (split; [|done]).
      - replace (t - i)%nat with (S (t - S i)) by lia. done.
      - replace (t - i)%nat with (S (t - S i)) in Hl by lia. done. }
    destruct b.
    + rewrite elem_of_cons, IH'. split.
      * intros [->|(pos' & Hlt & Hl & Hc)].
        -- exists pos. by rewrite Nat.sub_diag.
        -- exists pos'. split; [lia|done].
      * intros (pos' & Hle & Hl & Hc).
        destruct (decide (t = i)) as [->|Hne]; [by left|right].
        exists pos'. split; [lia|done].
    + rewrite IH'. split.
      * intros (pos' & Hlt & Hl & Hc). exists pos'. split; [lia|done].
      * intros (pos' & Hle & Hl & Hc).
        destruct (decide (t = i)) as [->|Hne].
        -- rewrite Nat.sub_diag in Hl. injection Hl as <-. congruence.
        -- exists pos'. split; [lia|done].
Qed.

(** A token is in [movable_tokens] exactly when [can_move_token] accepts
    it. *)
Lemma movable_tokens_spec toks idx roll ms :
  movable_tokens toks idx roll = Some ms →
  ∀ t, t ∈ ms ↔ ∃ pos, toks !! t = Some pos ∧
                       can_move_token pos idx roll = Some true.
Proof.
  intros Hm t. rewrite (movable_from_spec idx roll toks 0 ms Hm).
  rewrite Nat.sub_0_r. split.
  - intros (pos & _ & ?). by exists pos.
  - intros (pos & ?). exists pos. split; [lia|done].
Qed.

Lemma can_move_token_total pos idx roll :
  is_Some (HOME_ENTRY !! idx) → is_Some (can_move_token pos idx roll).
Proof.
  intros [entry He]. unfold can_move_token. rewrite He. simpl.
  repeat case_bool_decide; eauto.
Qed.

Lemma movable_from_total idx roll :
  is_Some (HOME_ENTRY !! idx) →
  ∀ toks i, is_Some (movable_from i toks idx roll).
Proof.
  intros He. induction toks as [|pos toks IH]; intros i; [by eexists|].
  cbn [movable_from].
  destruct (can_move_token_total pos idx roll He) as [b ->].
  destruct (IH (S i)) as [ms ->]. by eexists.
Qed.

(** ** Well-formed games, as propositions *)

Lemma wf_game_spec g :
  wf_game g = true ↔
  length (players g) = num_players g ∧
  (2 ≤ num_players g ≤ 4)%nat ∧
  (current_player g < num_players g)%nat ∧
  Forall (λ toks, length toks = TOKENS_PER_PLAYER ∧ Forall valid_pos toks)
         (players g).
Proof.
  unfold wf_game. rewrite !andb_true_iff, !bool_decide_eq_true.
  assert (forallb (λ toks, bool_decide (length toks = TOKENS_PER_PLAYER)
                           && forallb (λ pos, bool_decide (valid_pos pos)) toks)
                  (players g) = true
          ↔ Forall (λ toks, length toks = TOKENS_PER_PLAYER
                            ∧ Forall valid_pos toks) (players g)) as ->.
  { rewrite forallb_forall, Forall_forall.
    split; intros Hall toks Hin.
    - apply list_elem_of_In in Hin. apply Hall in Hin.
      apply andb_true_iff in Hin as [Hl Hf].
      apply bool_decide_eq_true in Hl. split; [done|].
      rewrite forallb_forall in Hf. apply Forall_forall. intros pos Hp.
      apply list_elem_of_In in Hp. apply Hf in Hp.
      by apply bool_decide_eq_true in Hp.
    - apply list_elem_of_In in Hin. apply Hall in Hin as [Hl Hf].
      apply andb_true_iff. split; [by apply bool_decide_eq_true|].
      apply forallb_forall. intros pos Hp. apply bool_decide_eq_true.
      rewrite Forall_forall in Hf. apply Hf. by apply list_elem_of_In. }
  tauto.
Qed.

Lemma wf_current_entry g :
  wf_game g = true → is_Some (HOME_ENTRY !! current_player g).
Proof.
  intros (_ & ? & ? & _)%wf_game_spec. apply lookup_lt_is_Some. simpl. lia.
Qed.

Lemma wf_current_tokens g :
  wf_game g = true →
  ∃ toks, players g !! current_player g = Some toks ∧
          length toks = TOKENS_PER_PLAYER ∧ Forall valid_pos toks.
Proof.
  intros (Hl & ? & ? & Hall)%wf_game_spec.
  destruct (lookup_lt_is_Some_2 (players g) (current_player g)) as [toks Ht];
    [lia|].
  exists toks. split; [done|].
  rewrite Forall_lookup in Hall. by apply (Hall _ _ Ht).
Qed.

(** ** The AI's choice *)

Lemma opponent_on_spec ps me target :
  opponent_on ps me target = true ↔
  ∃ q toks u, q ≠ me ∧ ps !! q = Some toks ∧ toks !! u = Some target
              ∧ target < MAIN_PATH_LEN.
Proof.
  unfold opponent_on. rewrite existsb_exists. split.
  - intros (b & Hin & Hb). unfold id in Hb. subst b.
    apply list_elem_of_In, elem_of_lookup_imap in Hin
      as (q & toks & Heq & Hq).
    symmetry in Heq. apply andb_true_iff in Heq as [Hne Hex].
    apply negb_true_iff, bool_decide_eq_false in Hne.
    apply existsb_exists in Hex as (ot & Hot & Hd).
    apply bool_decide_eq_true in Hd as [-> Hlt].
    apply list_elem_of_In, list_elem_of_lookup in Hot as [u Hu].
    by exists q, toks, u.
  - intros (q & toks & u & Hne & Hq & Hu & Hlt).
    exists true. split; [|done].
    apply list_elem_of_In, elem_of_lookup_imap. exists q, toks.
    split; [|done]. symmetry. apply andb_true_iff. split.
    + by apply negb_true_iff, bool_decide_eq_false.
    + apply existsb_exists. exists target. split.
      * apply list_elem_of_In, list_elem_of_lookup. by exists u.
      * by apply bool_decide_eq_true.
Qed.

(** The body of the AI's scan finds a capture exactly when the landing of
    the token is a shared-track cell held by an opposing token. *)
Lemma captures_spec g me roll t :
  captures g me roll t = Some true ↔ capture_move g me roll t.
Proof.
  unfold captures, capture_move. split.
  - destruct (token_pos g me t) as [pos|]; [|done]. cbn [mbind option_bind].
    destruct (advance_position pos roll me) as [target|] eqn:Ha; [|done].
    cbn [mbind option_bind]. intros [= Hb].
    apply andb_true_iff in Hb as [Hr Ho].
    apply bool_decide_eq_true in Hr.
    apply opponent_on_spec in Ho as (q & toks & u & Hne & Hq & Hu & Hlt).
    exists pos, target, q, u. unfold MAIN_PATH_LEN in *.
    repeat split; try done; try lia.
    unfold token_pos. by rewrite Hq.
  - intros (pos & target & q & u & -> & Ha & Hr & Hne & Hq).
    cbn [mbind option_bind]. rewrite Ha. cbn [mbind option_bind].
    f_equal. apply andb_true_iff. split.
    + apply bool_decide_eq_true. unfold MAIN_PATH_LEN. lia.
    + apply opponent_on_spec. unfold token_pos in Hq.
      destruct (players g !! q) as [toks|] eqn:Hpq; [|done].
      exists q, toks, u. unfold MAIN_PATH_LEN. repeat split; try done. lia.
Qed.

Lemma advance_position_total pos steps p :
  is_Some (HOME_ENTRY !! p) → is_Some (advance_position pos steps p).
Proof.
  intros He. pose proof He as [start Hs]%tables_same_keys.
  destruct He as [entry He].
  unfold advance_position. rewrite He, Hs. simpl.
  repeat case_bool_decide; eauto.
Qed.

Lemma captures_total g me roll t :
  is_Some (HOME_ENTRY !! me) → is_Some (token_pos g me t) →
  is_Some (captures g me roll t).
Proof.
  intros He [pos Hp]. unfold captures. rewrite Hp. cbn [mbind option_bind].
  destruct (advance_position_total pos roll me He) as [target ->].
  by eexists.
Qed.

Lemma captures_false g me roll t :
  captures g me roll t = Some false → ¬ capture_move g me roll t.
Proof. intros Hf Hc%captures_spec. congruence. Qed.

(** The scan stops at the first token of [movable] with a capture. *)
Lemma capture_choice_spec g me roll :
  ∀ movable,
    Forall (λ t, is_Some (captures g me roll t)) movable →
    ∃ choice,
      capture_choice g me roll movable = Some choice ∧
      match choice with
      | Some t =>
          capture_move g me roll t ∧
          ∃ before behind,
            movable = before ++ t :: behind ∧
            Forall (λ u, ¬ capture_move g me roll u) before
      | None => Forall (λ u, ¬ capture_move g me roll u) movable
      end.
Proof.
  induction movable as [|t rest IH]; intros Hall.
  - exists None. by split.
  - apply Forall_cons in Hall as [[b Hb] Hrest].
    cbn [capture_choice]. rewrite Hb. cbn [mbind option_bind].
    destruct b.
    + exists (Some t). split; [done|]. split; [by apply captures_spec|].
      by exists [], rest.
    + destruct (IH Hrest) as (choice & -> & Hc).
      exists choice. split; [done|].
      destruct choice as [t'|].
      * destruct Hc as (Hcap & before & behind & -> & Hb').
        split; [done|]. exists (t :: before), behind. split; [done|].
        constructor; [by apply captures_false|done].
      * constructor; [by apply captures_false|done].
Qed.

(** What [ai_roll] schedules when some token can move. *)
Lemma ai_roll_choice (g : Game) (r : Z) (c : nat)
        (toks : list Z) (movable : list nat) :
  wf_game g = true →
  players g !! current_player g = Some toks →
  movable_tokens toks (current_player g) r = Some movable →
  movable ≠ [] →
  ∃ t,
    ai_roll g r c =
      Some (after (CbMakeMove (current_player g) t) (set_dice_roll (Some r) g)) ∧
    t ∈ movable ∧
    ((∃ u, u ∈ movable ∧ capture_move g (current_player g) r u) →
     capture_move g (current_player g) r t ∧
     ∃ before behind,
       movable = before ++ t :: behind ∧
       Forall (λ u, ¬ capture_move g (current_player g) r u) before).
Proof.
  intros Hwf Htoks Hmov Hne.
  pose proof (wf_current_entry g Hwf) as He.
  unfold ai_roll. cbv zeta.
  set (g1 := set_dice_roll (Some r) g).
  change (players g1) with (players g).
  change (current_player g1) with (current_player g).
  rewrite Htoks. cbn [mbind option_bind]. rewrite Hmov.
  cbn [mbind option_bind].
  destruct movable as [|m0 ms]; [done|]. cbv beta iota.
  set (movable := m0 :: ms) in *.
  assert (∀ t, capture_move g1 (current_player g) r t
               ↔ capture_move g (current_player g) r t) as Hsame by done.
  destruct (capture_choice_spec g1 (current_player g) r movable)
    as (choice & Hch & Hspec).
  { apply Forall_forall. intros t Ht.
    apply captures_total; [done|].
    apply (movable_tokens_spec _ _ _ _ Hmov) in Ht as (pos & Hp & _).
    exists pos. unfold token_pos.
    change (players g1) with (players g). by rewrite Htoks. }
  rewrite Hch. cbn [mbind option_bind].
  destruct choice as [t|].
  - destruct Hspec as (Hcap & before & behind & Heq & Hbefore).
    exists t. cbn [mbind option_bind]. split; [done|]. split.
    + rewrite Heq. apply elem_of_app. right. by left.
    + intros _. split; [by apply Hsame|]. exists before, behind.
      split; [done|]. eapply Forall_impl; [exact Hbefore|].
      intros u Hu Hc. by apply Hu, Hsame.
  - assert (c `mod` length movable < length movable)%nat as Hlt.
    { apply Nat.mod_upper_bound. done. }
    destruct (lookup_lt_is_Some_2 _ _ Hlt) as [t Ht].
    exists t. rewrite Ht. cbn [mbind option_bind]. split; [done|]. split.
    + apply list_elem_of_lookup. by eexists.
    + intros (u & Hu & Hc). exfalso.
      rewrite Forall_forall in Hspec. by apply (Hspec u Hu), Hsame.
Qed.

(** C9. With a non-empty legal set, [ai_roll] schedules the move of one
    token of that set; whenever some legal token's landing is a
    shared-track cell held by an opposing token, the scheduled token is
    such a token and no token before it in the scan order of the legal set
    is (so it need not be the first legal token). *)
Theorem ai_roll_prefers_capture (g : Game) (r : Z) (c : nat)
        (toks : list Z) (movable : list nat) :
  wf_game g = true →
  players g !! current_player g = Some toks →
  movable_tokens toks (current_player g) r = Some movable →
  movable ≠ [] →
  ∃ t,
    ai_roll g r c =
      Some (after (CbMakeMove (current_player g) t) (set_dice_roll (Some r) g)) ∧
    t ∈ movable ∧
    ((∃ u, u ∈ movable ∧ capture_move g (current_player g) r u) →
     capture_move g (current_player g) r t ∧
     ∃ before behind,
       movable = before ++ t :: behind ∧
       Forall (λ u, ¬ capture_move g (current_player g) r u) before).
Proof. apply ai_roll_choice. Qed.

Lemma ai_roll_prefers_capture_witness :
  let g := mkGame [[33; 20; -1; -1]; [10; 30; -1; -1]] 1 None 1 2 [] [] in
  ∃ t,
    ai_roll g 3 0 =
      Some (after (CbMakeMove (current_player g) t) (set_dice_roll (Some 3) g)) ∧
    t ∈ [0; 1]%nat ∧
    ((∃ u, u ∈ [0; 1]%nat ∧ capture_move g (current_player g) 3 u) →
     capture_move g (current_player g) 3 t ∧
     ∃ before behind,
       [0; 1]%nat = before ++ t :: behind ∧
       Forall (λ u, ¬ capture_move g (current_player g) 3 u) before).
Proof.
  intros g.
  apply (ai_roll_prefers_capture g 3 0 [10; 30; -1; -1] [0; 1]%nat);
    [reflexivity | reflexivity | reflexivity | done].
Defined.

(** Scenario 4 of the specification: the second legal token captures, and
    it is the one the AI moves. *)
Example ai_roll_scenario_4 :
  ai_roll (mkGame [[33; 20; -1; -1]; [10; 30; -1; -1]] 1 None 1 2 [] []) 3 0
  = Some (mkGame [[33; 20; -1; -1]; [10; 30; -1; -1]] 1 (Some 3) 1 2
                 [CbMakeMove 1 1] []).
Proof. reflexivity. Qed.

(** ** Running a move to its end *)

Lemma fired_only_timer cb g :
  timers g = [] → set_timers (delete 0%nat (timers (after cb g))) (after cb g) = g.
Proof. destruct g. simpl. by intros ->. Qed.

Lemma bind_Some {A} (m : option A) : m ≫= Some = m.
Proof. by destruct m. Qed.

(** With nothing scheduled, a timer event finds nothing to run. *)
Lemma run_idle r c n g :
  timers g = [] → run (repeat (Fire 0 r c) n) g = Some g.
Proof.
  intros Ht. induction n as [|n IH]; [done|].
  cbn [repeat run step]. rewrite Ht. cbn [lookup list_lookup mbind option_bind].
  exact IH.
Qed.

(** The end of each drawn step coming due, one after the other and with
    no other event in between, stores the remaining entries in turn and
    then runs [on_done]. *)
Lemma run_animation r c p t roll :
  ∀ rest g,
    timers g = [] →
    run (repeat (Fire 0 r c) (S (length rest))) (after (CbStepEnd p t rest roll) g)
    = on_done (foldl (λ g v, set_pos p t v g) g rest) p t roll.
Proof.
  induction rest as [|x rest IH]; intros g Ht.
  - cbn [length repeat run step].
    assert (timers (after (CbStepEnd p t [] roll) g) !! 0%nat
            = Some (CbStepEnd p t [] roll)) as -> by (simpl; by rewrite Ht).
    rewrite fired_only_timer by done.
    cbn [fire animate_move foldl]. apply bind_Some.
  - change (repeat (Fire 0 r c) (S (length (x :: rest))))
      with (Fire 0 r c :: repeat (Fire 0 r c) (S (length rest))).
    cbn [run step].
    assert (timers (after (CbStepEnd p t (x :: rest) roll) g) !! 0%nat
            = Some (CbStepEnd p t (x :: rest) roll)) as -> by (simpl; by rewrite Ht).
    rewrite fired_only_timer by done.
    cbn [fire animate_move mbind option_bind foldl].
    by apply IH.
Qed.

(** ** Well-formedness is kept *)

Lemma wf_game_players g g' :
  players g' = players g → num_players g' = num_players g →
  current_player g' = current_player g →
  wf_game g = true → wf_game g' = true.
Proof.
  intros Hp Hn Hc. rewrite !wf_game_spec, Hp, Hn, Hc. done.
Qed.

Lemma wf_set_pos p t v g :
  valid_pos v → wf_game g = true → wf_game (set_pos p t v g) = true.
Proof.
  intros Hv. rewrite !wf_game_spec. cbn [set_pos set_players players
    num_players current_player].
  intros (Hl & Hn & Hc & Hall). rewrite length_alter.
  repeat split; try done; try lia.
  apply Forall_alter; [done|]. intros toks _ [Hlen Hf].
  rewrite length_insert. split; [done|].
  apply Forall_insert; done.
Qed.

Lemma wf_foldl_set_pos p t path :
  Forall (λ x, 0 <= x <= 57) path →
  ∀ g, wf_game g = true →
       wf_game (foldl (λ g v, set_pos p t v g) g path) = true.
Proof.
  induction path as [|x path IH]; intros Hall g Hwf; [done|].
  apply Forall_cons in Hall as [Hx Hrest].
  cbn [foldl]. apply IH; [done|]. apply wf_set_pos; [by right|done].
Qed.

Lemma wf_check_capture g p t g' :
  check_capture g p t = Some g' → wf_game g = true → wf_game g' = true.
Proof.
  unfold check_capture. destruct (token_pos g p t) as [moved|]; [|done].
  cbn [mbind option_bind]. intros [= <-]. rewrite !wf_game_spec.
  cbn [set_players players num_players current_player].
  intros (Hl & Hn & Hc & Hall). rewrite length_imap.
  repeat split; try done; try lia.
  apply Forall_lookup. intros q toks' Hq.
  rewrite list_lookup_imap in Hq.
  destruct (players g !! q) as [toks|] eqn:Hpq; [|done].
  injection Hq as <-.
  rewrite Forall_lookup in Hall. destruct (Hall _ _ Hpq) as [Hlen Hf].
  case_bool_decide; [done|]. rewrite length_fmap. split; [done|].
  apply Forall_fmap. eapply Forall_impl; [exact Hf|].
  intros ot Hot. simpl. case_bool_decide; [by left|done].
Qed.

Lemma token_pos_set_pos p t v g :
  is_Some (token_pos g p t) → token_pos (set_pos p t v g) p t = Some v.
Proof.
  unfold token_pos. cbn [set_pos set_players players].
  rewrite list_lookup_alter_eq.
  destruct (players g !! p) as [toks|]; [|by intros [? ?]].
  cbn [mbind option_bind fmap option_fmap option_map].
  intros Hs. apply list_lookup_insert_eq. by apply lookup_lt_is_Some.
Qed.

Lemma token_pos_foldl_set_pos p t :
  ∀ path g,
    is_Some (token_pos g p t) →
    is_Some (token_pos (foldl (λ g v, set_pos p t v g) g path) p t).
Proof.
  induction path as [|x path IH]; intros g Hs; [done|].
  cbn [foldl]. apply IH. rewrite token_pos_set_pos; eauto.
Qed.

Lemma foldl_set_pos_fields p t :
  ∀ path g,
    let g' := foldl (λ g v, set_pos p t v g) g path in
    current_player g' = current_player g ∧ dice_roll g' = dice_roll g ∧
    human_count g' = human_count g ∧ timers g' = timers g.
Proof.
  induction path as [|x path IH]; intros g; [done|].
  cbn [foldl]. destruct (IH (set_pos p t x g)) as (-> & -> & -> & ->). done.
Qed.

(** ** The base release in play *)

Lemma no_step_pending_after cb g :
  match cb with CbStepEnd _ _ _ _ => False | _ => True end →
  no_step_pending g → no_step_pending (after cb g).
Proof.
  intros Hcb Hg. unfold no_step_pending. cbn [after set_timers timers].
  apply Forall_app. split; [done|]. by constructor.
Qed.

Lemma no_step_pending_update_ui g :
  no_step_pending g → no_step_pending (update_ui g).
Proof.
  intros Hg. unfold update_ui. destruct (_ && _); [|done].
  by apply no_step_pending_after.
Qed.

Lemma no_step_pending_next_turn g g' :
  next_turn g = Some g' → no_step_pending g → no_step_pending g'.
Proof.
  unfold next_turn, check_winner.
  destruct (find_winner 0 (players g)); [by intros [= <-]|].
  case_bool_decide; [done|]. intros [= <-] Hg.
  by apply no_step_pending_update_ui.
Qed.

Lemma all_in_base_token_pos g p t pos :
  all_in_base g → token_pos g p t = Some pos → pos = -1.
Proof.
  unfold all_in_base, token_pos. intros Hall Hp.
  destruct (players g !! p) as [toks|] eqn:Hl; [|done].
  rewrite Forall_lookup in Hall. specialize (Hall _ _ Hl).
  rewrite Forall_lookup in Hall. by apply (Hall t).
Qed.

(** With every token in base, [make_move] moves nothing and starts no
    animation, whatever the roll. *)
Lemma make_move_in_base g p t g' :
  all_in_base g → no_step_pending g →
  make_move g p t = Some g' →
  players g' = players g ∧ no_step_pending g'.
Proof.
  intros Hbase Hns. unfold make_move.
  destruct (dice_roll g) as [roll|]; [|done]. cbn [mbind option_bind].
  destruct (token_pos g p t) as [old|] eqn:Hp; [|done].
  cbn [mbind option_bind].
  pose proof (all_in_base_token_pos _ _ _ _ Hbase Hp) as ->.
  rewrite path_from_base_empty.
  cbn [mbind option_bind animate_move]. unfold on_done. rewrite Hp.
  cbn [mbind option_bind].
  rewrite (bool_decide_eq_false_2 (-1 >= 0 ∧ -1 < MAIN_PATH_LEN)) by lia.
  cbn [mbind option_bind].
  case_bool_decide.
  - intros Hnext. split.
    + by rewrite (players_next_turn _ _ Hnext).
    + by apply (no_step_pending_next_turn _ _ Hnext).
  - intros [= <-]. split.
    + by rewrite players_update_ui.
    + by apply no_step_pending_update_ui.
Qed.

Lemma step_in_base g e g' :
  all_in_base g → no_step_pending g →
  step g e = Some g' →
  players g' = players g ∧ no_step_pending g'.
Proof.
  intros Hbase Hns. destruct e as [r|[[p t]|]|k r c]; cbn [step].
  - unfold roll_dice. destruct (dice_roll g); [by intros [= <-]|].
    case_bool_decide; [by intros [= <-]|]. cbv zeta.
    set (g1 := set_dice_roll (Some r) g).
    destruct (players g1 !! current_player g1) as [toks|]; [|done].
    cbn [mbind option_bind].
    destruct (movable_tokens toks (current_player g1) r) as [[|m ms]|];
      [| |done]; cbn [mbind option_bind]; intros [= <-].
    + split; [done|]. by apply no_step_pending_after.
    + split; [by rewrite players_update_ui|].
      by apply no_step_pending_update_ui.
  - unfold on_token_clicked. case_bool_decide; [by intros [= <-]|].
    destruct (dice_roll g) as [roll|]; [|by intros [= <-]].
    destruct (token_pos g p t) as [pos|]; [|done]. cbn [mbind option_bind].
    destruct (can_move_token pos p roll) as [[|]|]; [| |done];
      cbn [mbind option_bind]; [|by intros [= <-]].
    by apply make_move_in_base.
  - by intros [= <-].
  - destruct (timers g !! k) as [cb|] eqn:Hk; [|by intros [= <-]].
    set (g0 := set_timers (delete k (timers g)) g).
    assert (all_in_base g0) as Hbase0 by done.
    assert (no_step_pending g0) as Hns0 by (by apply Forall_delete).
    unfold no_step_pending in Hns. rewrite Forall_lookup in Hns.
    specialize (Hns _ _ Hk).
    destruct cb as [| |p t|p t rest roll]; [| | |done]; cbn [fire].
    + intros Hnext. split.
      * by rewrite (players_next_turn _ _ Hnext).
      * by apply (no_step_pending_next_turn _ _ Hnext).
    + unfold ai_roll. cbv zeta. set (g1 := set_dice_roll (Some r) g0).
      destruct (players g1 !! current_player g1) as [toks|]; [|done].
      cbn [mbind option_bind].
      destruct (movable_tokens toks (current_player g1) r) as [[|m ms]|];
        [| |done]; cbn [mbind option_bind].
      * intros [= <-]. split; [done|]. by apply no_step_pending_after.
      * destruct (capture_choice g1 (current_player g1) r (m :: ms))
          as [choice|]; [|done]. cbn [mbind option_bind].
        destruct (match choice with
                  | Some t => Some t
                  | None => (m :: ms) !! (c `mod` length (m :: ms))%nat
                  end) as [t|]; [|done].
        cbn [mbind option_bind]. intros [= <-].
        split; [done|]. by apply no_step_pending_after.
    + intros Hm.
      by destruct (make_move_in_base g0 p t g' Hbase0 Hns0 Hm) as [-> ?].
Qed.

Lemma finished_in_base toks :
  Forall (λ pos, pos = -1) toks → finished toks = 0%nat.
Proof.
  unfold finished, MAIN_PATH_LEN, HOME_STRETCH_LEN.
  induction 1 as [|pos toks -> _ IH]; [done|].
  rewrite filter_cons. by case_decide.
Qed.

Lemma find_winner_in_base ps :
  Forall (Forall (λ pos, pos = -1)) ps → ∀ i, find_winner i ps = None.
Proof.
  induction 1 as [|toks ps Htoks _ IH]; intros i; [done|].
  cbn [find_winner]. rewrite (finished_in_base _ Htoks).
  rewrite bool_decide_eq_false_2 by done. apply IH.
Qed.

Lemma dialogs_update_ui g : dialogs (update_ui g) = dialogs g.
Proof. unfold update_ui. by destruct (_ && _). Qed.

Lemma dialogs_next_turn_in_base g g' :
  all_in_base g → next_turn g = Some g' → dialogs g' = dialogs g.
Proof.
  intros Hbase. unfold next_turn, check_winner.
  rewrite (find_winner_in_base _ Hbase).
  case_bool_decide; [done|]. intros [= <-]. by rewrite dialogs_update_ui.
Qed.

Lemma dialogs_make_move_in_base g p t g' :
  all_in_base g → make_move g p t = Some g' → dialogs g' = dialogs g.
Proof.
  intros Hbase. unfold make_move.
  destruct (dice_roll g) as [roll|]; [|done]. cbn [mbind option_bind].
  destruct (token_pos g p t) as [old|] eqn:Hp; [|done].
  cbn [mbind option_bind].
  pose proof (all_in_base_token_pos _ _ _ _ Hbase Hp) as ->.
  rewrite path_from_base_empty.
  cbn [mbind option_bind animate_move]. unfold on_done. rewrite Hp.
  cbn [mbind option_bind].
  rewrite (bool_decide_eq_false_2 (-1 >= 0 ∧ -1 < MAIN_PATH_LEN)) by lia.
  cbn [mbind option_bind].
  case_bool_decide.
  - intros Hnext.
    by rewrite (dialogs_next_turn_in_base (set_dice_roll None g) g' Hbase Hnext).
  - intros [= <-]. by rewrite dialogs_update_ui.
Qed.

Lemma step_in_base_dialogs g e g' :
  all_in_base g → no_step_pending g →
  step g e = Some g' →
  no_win_declared g → no_win_declared g'.
Proof.
  intros Hbase Hns. unfold no_win_declared.
  destruct e as [r|[[p t]|]|k r c]; cbn [step].
  - unfold roll_dice. destruct (dice_roll g); [by intros [= <-]|].
    case_bool_decide; [by intros [= <-]|]. cbv zeta.
    set (g1 := set_dice_roll (Some r) g).
    destruct (players g1 !! current_player g1) as [toks|]; [|done].
    cbn [mbind option_bind].
    destruct (movable_tokens toks (current_player g1) r) as [[|m ms]|];
      [| |done]; cbn [mbind option_bind]; intros [= <-]; [done|].
    by rewrite dialogs_update_ui.
  - unfold on_token_clicked. case_bool_decide; [by intros [= <-]|].
    destruct (dice_roll g) as [roll|];
      [|intros [= <-] Hd; by constructor].
    destruct (token_pos g p t) as [pos|]; [|done]. cbn [mbind option_bind].
    destruct (can_move_token pos p roll) as [[|]|]; [| |done];
      cbn [mbind option_bind]; [|by intros [= <-]].
    intros Hm. by rewrite (dialogs_make_move_in_base _ _ _ _ Hbase Hm).
  - by intros [= <-].
  - destruct (timers g !! k) as [cb|] eqn:Hk; [|by intros [= <-]].
    set (g0 := set_timers (delete k (timers g)) g).
    assert (all_in_base g0) as Hbase0 by done.
    unfold no_step_pending in Hns. rewrite Forall_lookup in Hns.
    specialize (Hns _ _ Hk).
    destruct cb as [| |p t|p t rest roll]; [| | |done]; cbn [fire].
    + intros Hnext. by rewrite (dialogs_next_turn_in_base _ _ Hbase0 Hnext).
    + unfold ai_roll. cbv zeta. set (g1 := set_dice_roll (Some r) g0).
      destruct (players g1 !! current_player g1) as [toks|]; [|done].
      cbn [mbind option_bind].
      destruct (movable_tokens toks (current_player g1) r) as [[|m ms]|];
        [| |done]; cbn [mbind option_bind].
      * by intros [= <-].
      * destruct (capture_choice g1 (current_player g1) r (m :: ms))
          as [choice|]; [|done]. cbn [mbind option_bind].
        destruct (match choice with
                  | Some t => Some t
                  | None => (m :: ms) !! (c `mod` length (m :: ms))%nat
                  end) as [t|]; [|done].
        cbn [mbind option_bind]. by intros [= <-].
    + intros Hm. by rewrite (dialogs_make_move_in_base _ _ _ _ Hbase0 Hm).
Qed.

(** From a game with every token in base and no animation in progress,
    whatever events follow, the tokens stay in base, no animation starts
    and no win is announced. *)
Lemma run_in_base (es : list event) :
  ∀ g0 g,
    all_in_base g0 → no_step_pending g0 →
    run es g0 = Some g →
    players g = players g0 ∧ no_step_pending g ∧
    (no_win_declared g0 → no_win_declared g).
Proof.
  induction es as [|e es IH]; intros g0 g Hbase Hns.
  - by intros [= <-].
  - cbn [run]. destruct (step g0 e) as [g1|] eqn:Hstep; [|done].
    cbn [mbind option_bind]. intros Hrest.
    destruct (step_in_base _ _ _ Hbase Hns Hstep) as [Hp Hns1].
    assert (all_in_base g1) as Hbase1 by (unfold all_in_base; by rewrite Hp).
    destruct (IH g1 g Hbase1 Hns1 Hrest) as (Hp' & Hns' & Hdl).
    split_and!; [congruence|done|].
    intros Hd0. apply Hdl.
    by apply (step_in_base_dialogs g0 e g1).
Qed.

Lemma play_from_start (n h : nat) (es : list event) (g : Game) :
  run es (init_players n h) = Some g →
  players g = replicate n (replicate TOKENS_PER_PLAYER (-1)) ∧
  no_step_pending g ∧ no_win_declared g.
Proof.
  intros Hrun.
  destruct (run_in_base es (init_players n h) g) as (Hp & Hns & Hdl);
    [|constructor|done|].
  { unfold all_in_base. cbn [init_players players].
    apply Forall_replicate. by apply Forall_replicate. }
  split_and!; [done|done|]. apply Hdl. constructor.
Qed.

(** ** The extra turn on a six *)

(** [on_done] for a roll of 6: captures are resolved, the roll is cleared
    and the player to move stays; [next_turn], and with it [check_winner],
    is not called; [update_ui] arms the next roll of an AI player. *)
Lemma on_done_six g p t :
  is_Some (token_pos g p t) → wf_game g = true →
  ∃ g', on_done g p t 6 = Some g' ∧
        current_player g' = current_player g ∧
        dice_roll g' = None ∧
        human_count g' = human_count g ∧
        dialogs g' = dialogs g ∧
        wf_game g' = true ∧
        timers g' =
          timers g ++ if bool_decide (current_player g < human_count g)%nat
                      then [] else [CbAiRoll].
Proof.
  intros [newpos Hp] Hwf. unfold on_done. rewrite Hp.
  cbn [mbind option_bind].
  assert (∃ g1, (if bool_decide (newpos >= 0 ∧ newpos < MAIN_PATH_LEN)
                 then check_capture g p t else Some g) = Some g1 ∧
                current_player g1 = current_player g ∧
                human_count g1 = human_count g ∧
                timers g1 = timers g ∧ dialogs g1 = dialogs g ∧
                wf_game g1 = true) as (g1 & -> & Hc & Hh & Ht & Hdl & Hwf1).
  { destruct (bool_decide _); [|by exists g].
    destruct (check_capture g p t) as [g1|] eqn:Hcap.
    - exists g1. split; [done|].
      pose proof (wf_check_capture _ _ _ _ Hcap Hwf) as Hwf1.
      unfold check_capture in Hcap. rewrite Hp in Hcap.
      injection Hcap as <-. done.
    - unfold check_capture in Hcap. by rewrite Hp in Hcap. }
  cbn [mbind option_bind].
  rewrite (bool_decide_eq_false_2 (6 ≠ 6)) by (intros H; by apply H).
  eexists. split; [done|].
  rewrite current_player_update_ui, dice_roll_update_ui.
  split_and!; try done.
  - unfold update_ui. by destruct (_ && _).
  - unfold update_ui. by destruct (_ && _).
  - apply (wf_game_players g1); try done.
    + by rewrite players_update_ui.
    + unfold update_ui. by destruct (_ && _).
    + by rewrite current_player_update_ui.
  - unfold update_ui.
    cbn [set_dice_roll current_player human_count dice_roll].
    rewrite Hc, Hh.
    rewrite (bool_decide_eq_true_2 (None = None)) by done.
    rewrite andb_true_r.
    destruct (decide (current_player g < human_count g)%nat) as [Hlt|Hge].
    + rewrite bool_decide_eq_false_2 by lia.
      rewrite bool_decide_eq_true_2 by done.
      cbn [set_dice_roll timers]. by rewrite Ht, app_nil_r.
    + rewrite bool_decide_eq_true_2 by lia.
      rewrite bool_decide_eq_false_2 by done.
      cbn [after set_timers set_dice_roll timers]. by rewrite Ht.
Qed.

(** A legal move on a pending 6, from [make_move] to the end of its
    animation: [n] drawn steps come due, none for a token in base and six
    on the board, and the same player is awaited for the next roll. *)
Lemma make_move_six (g : Game) (t : nat) (pos : Z) (r : Z) (c : nat) :
  wf_game g = true → dice_roll g = Some 6 → timers g = [] →
  token_pos g (current_player g) t = Some pos →
  can_move_token pos (current_player g) 6 = Some true →
  ∃ (n : nat) gm g',
    make_move g (current_player g) t = Some gm ∧
    run (repeat (Fire 0 r c) n) gm = Some g' ∧
    (n = 0 ∨ n = 6)%nat ∧
    current_player g' = current_player g ∧
    awaiting_roll g'.
Proof.
  intros Hwf Hd Htm Htp Hlegal.
  pose proof (wf_current_entry g Hwf) as He.
  assert (valid_pos pos) as Hvalid.
  { destruct (wf_current_tokens g Hwf) as (toks & Htoks & _ & Hall).
    unfold token_pos in Htp. rewrite Htoks in Htp.
    rewrite Forall_lookup in Hall. by apply (Hall t). }
  assert (∀ g' : Game,
            current_player g' = current_player g →
            dice_roll g' = None →
            human_count g' = human_count g →
            wf_game g' = true →
            timers g' =
              [] ++ (if bool_decide (current_player g < human_count g)%nat
                     then [] else [CbAiRoll]) →
            awaiting_roll g') as Hawait.
  { intros g' Hc' Hd' Hh' Hwf' Ht'. unfold awaiting_roll.
    rewrite Hc', Hh'. by split_and!. }
  unfold make_move. rewrite Hd, Htp. cbn [mbind option_bind].
  destruct Hvalid as [->|Hboard].
  - (* from base: [on_done] runs at once *)
    rewrite path_from_base_empty. cbn [mbind option_bind animate_move].
    destruct (on_done_six g (current_player g) t ltac:(eauto) Hwf)
      as (g' & Hdone & Hc' & Hd' & Hh' & _ & Hwf' & Ht').
    exists 0%nat, g', g'. rewrite Htm in Ht'.
    split_and!; try done; [by left|by apply Hawait].
  - (* on the board: six steps, then [on_done] *)
    destruct (make_move_path_on_board pos 6 (current_player g) He Hboard
                ltac:(lia) Hlegal)
      as (path & rr & -> & _ & Hlen & _ & Hall & _).
    cbn [mbind option_bind].
    destruct path as [|x rest]; [done|].
    apply Forall_cons in Hall as [Hx Hrest].
    cbn [animate_move].
    set (g2 := set_pos (current_player g) t x g).
    set (gf := foldl (λ g0 v, set_pos (current_player g) t v g0) g2 rest).
    assert (is_Some (token_pos g2 (current_player g) t)) as Hs2.
    { unfold g2. rewrite token_pos_set_pos; eauto. }
    assert (wf_game gf = true) as Hwff.
    { apply wf_foldl_set_pos; [done|]. apply wf_set_pos; [by right|done]. }
    destruct (foldl_set_pos_fields (current_player g) t rest g2)
      as (Hcf & _ & Hhf & Htf). fold gf in Hcf, Hhf, Htf.
    change (current_player g2) with (current_player g) in Hcf.
    change (human_count g2) with (human_count g) in Hhf.
    change (timers g2) with (timers g) in Htf.
    destruct (on_done_six gf (current_player g) t
                (token_pos_foldl_set_pos _ _ rest g2 Hs2) Hwff)
      as (g' & Hdone & Hc' & Hd' & Hh' & _ & Hwf' & Ht').
    exists 6%nat, (after (CbStepEnd (current_player g) t rest 6) g2), g'.
    split; [done|]. split.
    { replace 6%nat with (S (length rest)) by (simpl in Hlen; lia).
      by rewrite run_animation. }
    split; [by right|]. split; [congruence|].
    apply Hawait; try congruence.
    rewrite Ht', Htf, Htm, Hcf, Hhf. done.
Qed.

(** A player who rolls a 6 and moves a legal token keeps the turn.  For a
    human player the events are the roll, the click that carries the legal
    token [t] and the drawn steps of its move; for an AI player they are
    the scheduled [ai_roll], the [make_move] it schedules and the drawn
    steps. *)
Lemma six_with_move (g : Game) (t : nat) (pos : Z) (toks : list Z)
        (r : Z) (c : nat) :
  awaiting_roll g →
  players g !! current_player g = Some toks →
  toks !! t = Some pos →
  can_move_token pos (current_player g) 6 = Some true →
  ∃ (n : nat) g',
    run (turn_start g 6 t c ++ repeat (Fire 0 r c) n) g = Some g' ∧
    (n = 0 ∨ n = 6)%nat ∧
    current_player g' = current_player g ∧
    awaiting_roll g'.
Proof.
  intros (Hwf & Hd & Htm) Htoks Hpos Hlegal.
  pose proof (wf_current_entry g Hwf) as He.
  destruct (movable_from_total (current_player g) 6 He toks 0) as [ms Hms].
  assert (t ∈ ms) as Hin.
  { apply (movable_tokens_spec toks (current_player g) 6 ms Hms).
    by exists pos. }
  unfold turn_start.
  destruct (decide (current_player g < human_count g)%nat) as [Hh|Hai].
  - (* a human player *)
    rewrite (bool_decide_eq_true_2 _ Hh) in Htm |- *.
    set (g1 := set_dice_roll (Some 6) g).
    assert (roll_dice g 6 = Some g1) as Hroll.
    { unfold roll_dice. rewrite Hd.
      rewrite (bool_decide_eq_false_2 (human_count g ≤ current_player g)%nat)
        by lia.
      cbv zeta. fold g1.
      change (players g1) with (players g).
      change (current_player g1) with (current_player g).
      rewrite Htoks. cbn [mbind option_bind].
      unfold movable_tokens. rewrite Hms. cbn [mbind option_bind].
      destruct ms as [|m ms]; [by apply elem_of_nil in Hin|].
      by rewrite update_ui_human. }
    assert (token_pos g1 (current_player g) t = Some pos) as Htp.
    { unfold token_pos. change (players g1) with (players g).
      by rewrite Htoks. }
    assert (on_token_clicked g1 (Some (current_player g, t))
            = make_move g1 (current_player g) t) as Hclick.
    { unfold on_token_clicked.
      rewrite (bool_decide_eq_false_2 (current_player g ≠ current_player g1))
        by (intros H; by apply H).
      change (dice_roll g1) with (Some 6). rewrite Htp.
      cbn [mbind option_bind]. by rewrite Hlegal. }
    assert (wf_game g1 = true) as Hwf1 by (by apply (wf_game_players g)).
    destruct (make_move_six g1 t pos r c Hwf1 eq_refl Htm Htp Hlegal)
      as (n & gm & g' & Hm & Hrun & Hn & Hc & Haw).
    exists n, g'. split_and!; try done.
    cbn [app run]. change (step g (RollClick 6)) with (roll_dice g 6).
    rewrite Hroll. cbn [mbind option_bind].
    change (step g1 (TokenClick (Some (current_player g, t))))
      with (on_token_clicked g1 (Some (current_player g, t))).
    rewrite Hclick. change (current_player g1) with (current_player g) in Hm.
    rewrite Hm. done.
  - (* an AI player *)
    rewrite (bool_decide_eq_false_2 _ Hai) in Htm |- *.
    set (g0 := set_timers [] g).
    assert (wf_game g0 = true) as Hwf0 by (by apply (wf_game_players g)).
    destruct (ai_roll_choice g0 6 c toks ms Hwf0 Htoks Hms)
      as (t' & Hai_roll & Hin' & _).
    { intros ->. by apply elem_of_nil in Hin. }
    change (current_player g0) with (current_player g) in Hai_roll.
    set (g1 := set_dice_roll (Some 6) g0) in *.
    apply (movable_tokens_spec toks (current_player g) 6 ms Hms) in Hin'
      as (pos' & Hpos' & Hlegal').
    assert (wf_game g1 = true) as Hwf1 by (by apply (wf_game_players g)).
    assert (token_pos g1 (current_player g) t' = Some pos') as Htp'.
    { unfold token_pos. change (players g1) with (players g).
      by rewrite Htoks. }
    destruct (make_move_six g1 t' pos' r c Hwf1 eq_refl eq_refl Htp' Hlegal')
      as (n & gm & g' & Hm & Hrun & Hn & Hc & Haw).
    exists n, g'. split_and!; try done.
    cbn [app run step]. rewrite Htm. cbn [lookup list_lookup delete
      list_delete fire]. fold g0. rewrite Hai_roll.
    cbn [mbind option_bind after set_timers timers app lookup list_lookup
      delete list_delete fire].
    change (timers g1) with (@nil callback). cbn [app lookup list_lookup
      delete list_delete fire].
    change (set_timers [] (after (CbMakeMove (current_player g) t') g1))
      with g1.
    change (current_player g1) with (current_player g) in Hm.
    rewrite Hm. done.
Qed.

(** [next_turn] in a game with nothing scheduled: it announces the first
    player with four tokens on 57 and leaves the turn where it is, or, when
    there is no such player, passes the turn and awaits the next player's
    roll. *)
Lemma next_turn_awaiting g :
  wf_game g = true → timers g = [] →
  ∃ g', next_turn g = Some g' ∧
        players g' = players g ∧
        match find_winner 0 (players g) with
        | Some w =>
            current_player g' = current_player g ∧
            dialogs g' = DlgGameOver w :: dialogs g
        | None =>
            current_player g'
            = ((current_player g + 1) `mod` num_players g)%nat ∧
            awaiting_roll g'
        end.
Proof.
  intros Hwf Htm. unfold next_turn, check_winner.
  destruct (find_winner 0 (players g)) as [w|]; [by eexists|].
  apply wf_game_spec in Hwf as (Hl & Hn & Hc & Hall).
  rewrite bool_decide_eq_false_2 by lia.
  eexists. split; [done|].
  rewrite players_update_ui, current_player_update_ui.
  split; [done|]. split; [done|].
  set (cp := ((current_player g + 1) `mod` num_players g)%nat).
  assert (cp < num_players g)%nat as Hcp by (apply Nat.mod_upper_bound; lia).
  unfold awaiting_roll.
  rewrite dice_roll_update_ui, current_player_update_ui.
  split_and!.
  - apply wf_game_spec. rewrite players_update_ui, current_player_update_ui.
    assert (num_players (update_ui (set_dice_roll None (set_current_player cp g)))
            = num_players g) as ->.
    { unfold update_ui. by destruct (_ && _). }
    done.
  - done.
  - assert (human_count (update_ui (set_dice_roll None (set_current_player cp g)))
            = human_count g) as ->.
    { unfold update_ui. by destruct (_ && _). }
    unfold update_ui.
    cbn [set_dice_roll set_current_player current_player human_count dice_roll].
    rewrite (bool_decide_eq_true_2 (None = None)) by done.
    rewrite andb_true_r.
    destruct (decide (cp < human_count g)%nat) as [Hlt|Hge].
    + rewrite bool_decide_eq_false_2 by lia.
      rewrite bool_decide_eq_true_2 by done. done.
    + rewrite bool_decide_eq_true_2 by lia.
      rewrite bool_decide_eq_false_2 by done.
      cbn [after set_timers timers set_dice_roll set_current_player].
      by rewrite Htm.
Qed.

(** A roll that finds no token to move, and the [next_turn] it defers
    coming due, amount to [next_turn]. *)
Lemma run_turn_skipped (g : Game) (toks : list Z) (roll : Z) (c : nat) :
  awaiting_roll g →
  players g !! current_player g = Some toks →
  movable_tokens toks (current_player g) roll = Some [] →
  run (turn_skipped g roll c) g = next_turn (set_timers [] g).
Proof.
  intros (Hwf & Hd & Htm) Htoks Hms. unfold turn_skipped.
  destruct g as [ps cp d hc np tm dl]. cbn in Hd, Htm, Htoks, Hms. subst d.
  cbn [current_player human_count].
  destruct (decide (cp < hc)%nat) as [Hh|Hai].
  - rewrite (bool_decide_eq_true_2 _ Hh) in Htm |- *. subst tm.
    cbn [run step]. unfold roll_dice. cbn [dice_roll human_count current_player].
    rewrite (bool_decide_eq_false_2 (hc ≤ cp)%nat) by lia.
    cbn [set_dice_roll players current_player]. rewrite Htoks.
    cbn [mbind option_bind]. rewrite Hms. cbn [mbind option_bind].
    cbn. by rewrite bind_Some.
  - rewrite (bool_decide_eq_false_2 _ Hai) in Htm |- *. subst tm.
    cbn [run step timers lookup list_lookup delete list_delete fire].
    unfold ai_roll. cbn [set_timers set_dice_roll players current_player].
    rewrite Htoks. cbn [mbind option_bind]. rewrite Hms.
    cbn. by rewrite bind_Some.
Qed.

(** C4, as the code has it.  Take a game that awaits the roll of the
    player to move, human or AI, with nothing else scheduled, and let that
    player roll a 6; [ms] is the legal set for the 6.
    - When a legal token is moved (any [t] of [ms] for a human player,
      whose click carries it; the token the AI schedules), then once the
      move has completed, after no drawn step from base and six on the
      board, the player to move is the same and the game awaits that
      player's roll again, so that the same holds for the next 6, however
      many follow.
    - When no token can move, the 6 is skipped like any other roll: the
      deferred [next_turn] passes the turn to the next player and the game
      awaits that player's roll, unless some player has four tokens on 57,
      in which case it announces that player and the player to move
      stays.
    - In a game played from the start this second case does not arise:
      every token is in base there, and the legal set for a 6 is all four
      tokens. *)
Theorem six_keeps_turn (g : Game) (toks : list Z) (ms : list nat)
        (r : Z) (c : nat) :
  awaiting_roll g →
  players g !! current_player g = Some toks →
  movable_tokens toks (current_player g) 6 = Some ms →
  (∀ t, t ∈ ms →
     ∃ (n : nat) g',
       run (turn_start g 6 t c ++ repeat (Fire 0 r c) n) g = Some g' ∧
       (n = 0 ∨ n = 6)%nat ∧
       current_player g' = current_player g ∧
       awaiting_roll g') ∧
  (ms = [] →
     ∃ g',
       run (turn_skipped g 6 c) g = Some g' ∧
       players g' = players g ∧
       match find_winner 0 (players g) with
       | Some w =>
           current_player g' = current_player g ∧
           dialogs g' = DlgGameOver w :: dialogs g
       | None =>
           current_player g'
           = ((current_player g + 1) `mod` num_players g)%nat ∧
           awaiting_roll g'
       end) ∧
  (∀ n h es, run es (init_players n h) = Some g → ms = [0; 1; 2; 3]%nat).
Proof.
  intros Haw Htoks Hms. split_and!.
  - intros t Hin.
    apply (movable_tokens_spec toks (current_player g) 6 ms Hms) in Hin
      as (pos & Hpos & Hlegal).
    by apply (six_with_move g t pos toks r c).
  - intros ->. rewrite (run_turn_skipped g toks 6 c Haw Htoks Hms).
    destruct Haw as (Hwf & _ & _).
    apply (next_turn_awaiting (set_timers [] g)); [|done].
    by apply (wf_game_players g).
  - intros n h es Hrun.
    destruct (play_from_start n h es g Hrun) as (Hp & _ & _).
    rewrite Hp in Htoks. apply lookup_replicate in Htoks as [-> _].
    by injection Hms as <-.
Qed.

Lemma six_keeps_turn_witness :
  let g := mkGame [[-1; -1; -1; -1]; [-1; -1; -1; -1]] 1 None 1 2
                  [CbAiRoll] [] in
  let ms := [0; 1; 2; 3]%nat in
  run [RollClick 2; Fire 0 0 0] (init_players 2 1) = Some g ∧
  (∀ t, t ∈ ms →
     ∃ (n : nat) g',
       run (turn_start g 6 t 0 ++ repeat (Fire 0 0 0) n) g = Some g' ∧
       (n = 0 ∨ n = 6)%nat ∧
       current_player g' = current_player g ∧
       awaiting_roll g') ∧
  (ms = [] →
     ∃ g',
       run (turn_skipped g 6 0) g = Some g' ∧
       players g' = players g ∧
       match find_winner 0 (players g) with
       | Some w =>
           current_player g' = current_player g ∧
           dialogs g' = DlgGameOver w :: dialogs g
       | None =>
           current_player g'
           = ((current_player g + 1) `mod` num_players g)%nat ∧
           awaiting_roll g'
       end) ∧
  (∀ n h es, run es (init_players n h) = Some g → ms = [0; 1; 2; 3]%nat).
Proof.
  intros g ms. split; [reflexivity|].
  apply (six_keeps_turn g [-1; -1; -1; -1] ms 0 0).
  - unfold awaiting_roll. split_and!; reflexivity.
  - reflexivity.
  - reflexivity.
Defined.

(** The turn of an AI player in a fresh game, where the move from base
    changes nothing, and the turns of a human and of an AI player with a
    token on the track. *)
Example six_keeps_turn_fresh :
  run (turn_start (mkGame [[-1; -1; -1; -1]; [-1; -1; -1; -1]] 1 None 1 2
                          [CbAiRoll] []) 6 0 0)
      (mkGame [[-1; -1; -1; -1]; [-1; -1; -1; -1]] 1 None 1 2 [CbAiRoll] [])
  = Some (mkGame [[-1; -1; -1; -1]; [-1; -1; -1; -1]] 1 None 1 2
                 [CbAiRoll] []).
Proof. reflexivity. Qed.

Example six_keeps_turn_human :
  run (turn_start (mkGame [[10; -1; -1; -1]; [-1; -1; -1; -1]] 0 None 2 2
                          [] []) 6 0 0
       ++ repeat (Fire 0 0 0) 6)
      (mkGame [[10; -1; -1; -1]; [-1; -1; -1; -1]] 0 None 2 2 [] [])
  = Some (mkGame [[16; -1; -1; -1]; [-1; -1; -1; -1]] 0 None 2 2 [] []).
Proof. reflexivity. Qed.

Example six_keeps_turn_ai :
  run (turn_start (mkGame [[-1; -1; -1; -1]; [20; -1; -1; -1]] 1 None 1 2
                          [CbAiRoll] []) 6 0 0
       ++ repeat (Fire 0 0 0) 6)
      (mkGame [[-1; -1; -1; -1]; [20; -1; -1; -1]] 1 None 1 2 [CbAiRoll] [])
  = Some (mkGame [[-1; -1; -1; -1]; [26; -1; -1; -1]] 1 None 1 2
                 [CbAiRoll] []).
Proof. reflexivity. Qed.

(** On a board set up with all four tokens in the home stretch, no token
    can move on the 6: [roll_dice] schedules [next_turn], which hands the
    turn to the next player although nobody has won.  With all four tokens
    on 57 the same events end in the announcement, and the player to move
    stays. *)
Example six_without_move_passes_turn :
  let g := mkGame [[52; 53; 54; 55]; [-1; -1; -1; -1]] 0 None 2 2 [] [] in
  awaiting_roll g ∧
  movable_tokens [52; 53; 54; 55] 0 6 = Some [] ∧
  (check_winner g).1 = false ∧
  run (turn_skipped g 6 0) g =
    Some (mkGame [[52; 53; 54; 55]; [-1; -1; -1; -1]] 1 None 2 2 [] []).
Proof. intros g. unfold awaiting_roll. split_and!; reflexivity. Qed.

Example six_without_move_on_a_win :
  let g := mkGame [[57; 57; 57; 57]; [-1; -1; -1; -1]] 0 None 2 2 [] [] in
  movable_tokens [57; 57; 57; 57] 0 6 = Some [] ∧
  run (turn_skipped g 6 0) g =
    Some (mkGame [[57; 57; 57; 57]; [-1; -1; -1; -1]] 0 None 2 2 []
                 [DlgGameOver 0]).
Proof. intros g. split; reflexivity. Qed.

(** C4, as the claim words it, fails in play when a callback is left over
    from an earlier roll.  In a fresh game of two human players, player 0
    rolls a 3, which no token in base can use: [roll_dice] clears the roll
    at once and defers [next_turn].  Before it comes due player 0 presses
    the button again and rolls a 6: the roll is accepted and stays
    pending, all four tokens being legal.  Then the deferred [next_turn]
    comes due: nobody has won, the 6 is discarded and player 1 is to
    move. *)
Lemma stale_next_turn_takes_six :
  let g := init_players 2 2 in
  let rolled := mkGame [[-1; -1; -1; -1]; [-1; -1; -1; -1]] 0 (Some 6) 2 2
                       [CbNextTurn] [] in
  run [RollClick 3; RollClick 6] g = Some rolled ∧
  movable_tokens [-1; -1; -1; -1] 0 6 = Some [0; 1; 2; 3]%nat ∧
  (check_winner rolled).1 = false ∧
  run [Fire 0 0 0] rolled =
    Some (mkGame [[-1; -1; -1; -1]; [-1; -1; -1; -1]] 1 None 2 2 [] []).
Proof. intros g rolled. split_and!; reflexivity. Qed.

(** ** Winning *)

(** [finished] counts all the tokens exactly when all of them are on 57;
    with three of four there it stays below [TOKENS_PER_PLAYER]. *)
Lemma finished_all toks :
  finished toks = length toks ↔ Forall (λ pos, pos = 57) toks.
Proof.
  unfold finished, MAIN_PATH_LEN, HOME_STRETCH_LEN.
  induction toks as [|pos toks IH]; [by split; [constructor|]|].
  rewrite filter_cons. cbn [length]. rewrite Forall_cons.
  pose proof (length_filter (λ pos, pos = 52 + 6 - 1) toks) as Hle.
  case_decide as Hp.
  - cbn [length]. rewrite <- IH. split.
    + intros [= ?]. split; [lia|done].
    + intros [_ ->]. done.
  - split; [intros ?; lia|]. intros [-> _]. by exfalso.
Qed.

Lemma find_winner_spec :
  ∀ ps i w,
    find_winner i ps = Some w ↔
    ∃ toks, (i ≤ w)%nat ∧ ps !! (w - i)%nat = Some toks ∧
            finished toks = TOKENS_PER_PLAYER ∧
            ∀ j toks', (j < w - i)%nat → ps !! j = Some toks' →
                       finished toks' ≠ TOKENS_PER_PLAYER.
Proof.
  induction ps as [|toks ps IH]; intros i w.
  - split; [done|]. by intros (? & _ & ? & _).
  - cbn [find_winner]. case_bool_decide as Hf.
    + split.
      * intros [= <-]. exists toks. rewrite Nat.sub_diag.
        split_and!; try done. intros j ? ?. lia.
      * intros (toks' & Hle & Hl & Hfin & Hfirst).
        destruct (decide (w = i)) as [->|Hne]; [done|]. exfalso.
        apply (Hfirst 0%nat toks); [lia|done|done].
    + rewrite IH. split.
      * intros (toks' & Hle & Hl & Hfin & Hfirst). exists toks'.
        split; [lia|]. replace (w - i)%nat with (S (w - S i)) by lia.
        split_and!; try done.
        intros [|j] toks'' Hj Hl''.
        -- injection Hl'' as <-. done.
        -- apply (Hfirst j); [lia|done].
      * intros (toks' & Hle & Hl & Hfin & Hfirst).
        destruct (decide (w = i)) as [->|Hne].
        { rewrite Nat.sub_diag in Hl. injection Hl as <-. done. }
        replace (w - i)%nat with (S (w - S i)) in * by lia.
        exists toks'. split; [lia|]. split_and!; try done.
        intros j toks'' Hj Hl''. apply (Hfirst (S j)); [lia|done].
Qed.


(** What the handlers do on boards set up by hand with tokens near the
    finish cell (play from a fresh game does not lead there, see
    [play_from_start]).  [on_done] calls [next_turn], and with it
    [check_winner], for a roll other than 6 only: a fourth token that
    arrives on a roll of 2 is announced at once; one that arrives on a
    roll of 6 is not, and the game awaits the same player's next roll. *)
Example win_on_six_not_declared :
  let g := mkGame [[57; 57; 57; 51]; [-1; -1; -1; -1]] 0 None 2 2 [] [] in
  let g' := mkGame [[57; 57; 57; 57]; [-1; -1; -1; -1]] 0 None 2 2 [] [] in
  run (RollClick 6 :: TokenClick (Some (0, 3)%nat) :: repeat (Fire 0 0 0) 6) g
  = Some g' ∧
  dialogs g' = [] ∧
  (check_winner g').1 = true.
Proof. intros g g'. split_and!; reflexivity. Qed.

Example win_on_two_declared :
  run (RollClick 2 :: TokenClick (Some (0, 3)%nat) :: repeat (Fire 0 0 0) 2)
      (mkGame [[57; 57; 57; 55]; [-1; -1; -1; -1]] 0 None 2 2 [] [])
  = Some (mkGame [[57; 57; 57; 57]; [-1; -1; -1; -1]] 0 None 2 2 []
                 [DlgGameOver 0]).
Proof. reflexivity. Qed.

(** Three tokens on 57 are not a win. *)
Example three_of_four_is_no_win :
  (check_winner
     (mkGame [[57; 57; 57; 56]; [-1; -1; -1; -1]] 0 None 2 2 [] [])).1 = false.
Proof. reflexivity. Qed.

(** ** Requests that are turned down *)


(** The handlers themselves keep no record of an animation.  On a board
    set up by hand with tokens on the track, and for clicks that carry
    their token, a click on token 1 while token 0 of the same player is on
    its way passes every check of [on_token_clicked] and starts a second
    move; both moves then run to their end, each of them ends the turn, and
    the second player is skipped.  Play from a fresh game does not lead to
    such a state: no animation ever starts there
    ([play_from_start]). *)
Example click_during_animation_moves :
  let g := mkGame [[10; 20; -1; -1]; [-1; -1; -1; -1]] 0 None 2 2 [] [] in
  let g1 := mkGame [[11; 20; -1; -1]; [-1; -1; -1; -1]] 0 (Some 3) 2 2
                   [CbStepEnd 0 0 [12; 13] 3] [] in
  let g2 := mkGame [[11; 21; -1; -1]; [-1; -1; -1; -1]] 0 (Some 3) 2 2
                   [CbStepEnd 0 0 [12; 13] 3; CbStepEnd 0 1 [22; 23] 3] [] in
  run [RollClick 3; TokenClick (Some (0, 0)%nat)] g = Some g1 ∧
  step g1 (TokenClick (Some (0, 1)%nat)) = Some g2 ∧
  players g2 ≠ players g1.
Proof. intros g g1 g2. split_and!; [reflexivity | reflexivity | done]. Qed.

Example click_during_animation_skips_player :
  run (RollClick 3 :: TokenClick (Some (0, 0)%nat)
         :: TokenClick (Some (0, 1)%nat) :: repeat (Fire 0 0 0) 6)
      (mkGame [[10; 20; -1; -1]; [-1; -1; -1; -1]; [-1; -1; -1; -1]]
              0 None 3 3 [] [])
  = Some (mkGame [[13; 23; -1; -1]; [-1; -1; -1; -1]; [-1; -1; -1; -1]]
                 2 None 3 3 [] []).
Proof. reflexivity. Qed.

(** ** After a win *)


Lemma find_winner_some ps :
  ∀ i p toks,
    ps !! p = Some toks → finished toks = TOKENS_PER_PLAYER →
    is_Some (find_winner i ps).
Proof.
  induction ps as [|toks0 ps IH]; intros i p toks Hl Hf; [done|].
  cbn [find_winner]. case_bool_decide; [by eexists|].
  destruct p as [|p]; [injection Hl as ->; done|]. by eapply IH.
Qed.





(** How a game comes to be settled: when the move of the player to move,
    with nothing else scheduled, leaves that player with all four tokens
    on 57, the game is settled once [on_done] has run, whatever the roll;
    for a roll other than 6 [on_done] has also announced a winner. *)
Lemma winning_move_settles (g g' : Game) (t : nat) (roll : Z) :
  wf_game g = true → timers g = [] →
  on_done g (current_player g) t roll = Some g' →
  all_finished g' (current_player g) →
  settled g' ∧
  (roll ≠ 6 → ∃ w, dialogs g' = DlgGameOver w :: dialogs g).
Proof.
  intros Hwf Htm. unfold on_done.
  destruct (token_pos g (current_player g) t) as [pos|] eqn:Hp; [|done].
  cbn [mbind option_bind].
  destruct (if bool_decide (pos >= 0 ∧ pos < MAIN_PATH_LEN)
            then check_capture g (current_player g) t else Some g)
    as [g1|] eqn:Hg1; [|done].
  cbn [mbind option_bind].
  assert (wf_game g1 = true ∧ timers g1 = timers g
          ∧ current_player g1 = current_player g
          ∧ dialogs g1 = dialogs g) as (Hwf1 & Ht1 & Hc1 & Hd1).
  { destruct (bool_decide (pos >= 0 ∧ pos < MAIN_PATH_LEN)).
    - split; [by apply (wf_check_capture _ _ _ _ Hg1)|].
      unfold check_capture in Hg1. rewrite Hp in Hg1.
      by injection Hg1 as <-.
    - by injection Hg1 as <-. }
  destruct (decide (roll = 6)) as [->|Hroll].
  - (* the turn is kept; nothing is announced *)
    rewrite bool_decide_eq_false_2 by (intros H; by apply H).
    intros [= <-] (toks & Htoks & H57).
    rewrite players_update_ui in Htoks. split; [|done].
    split_and!.
    + apply (wf_game_players g1); try done.
      * by rewrite players_update_ui.
      * unfold update_ui. by destruct (_ && _).
      * by rewrite current_player_update_ui.
    + by rewrite dice_roll_update_ui.
    + exists toks. rewrite players_update_ui, current_player_update_ui.
      cbn [set_dice_roll players current_player]. rewrite Hc1. by split.
    + unfold update_ui. destruct (_ && _);
        cbn [after set_timers set_dice_roll timers]; rewrite Ht1, Htm;
        [|constructor].
      constructor; [by right|constructor].
  - rewrite bool_decide_eq_true_2 by done.
    intros Hnext (toks & Htoks & H57).
    pose proof (players_next_turn _ _ Hnext) as Hpl.
    change (players (set_dice_roll None g1)) with (players g1) in Hpl.
    rewrite Hpl in Htoks.
    assert (finished toks = TOKENS_PER_PLAYER) as Hfin.
    { apply wf_game_spec in Hwf1 as (_ & _ & _ & Hall).
      rewrite Forall_lookup in Hall.
      destruct (Hall _ _ Htoks) as [<- _]. by apply finished_all. }
    revert Hnext. unfold next_turn, check_winner.
    change (players (set_dice_roll None g1)) with (players g1).
    destruct (find_winner_some (players g1) 0 _ _ Htoks Hfin) as [w ->].
    intros [= <-]. split.
    + split_and!.
      * by apply (wf_game_players g1).
      * done.
      * exists toks. cbn [show set_dice_roll players current_player].
        rewrite Hc1. by split.
      * cbn [show set_dice_roll timers]. rewrite Ht1, Htm. constructor.
    + intros _. exists w. cbn [show set_dice_roll dialogs]. by rewrite Hd1.
Qed.

Example winning_move_settles_example :
  let g := mkGame [[57; 57; 57; 57]; [13; -1; -1; -1]] 0 (Some 2) 2 2 [] [] in
  ∃ g', on_done g 0 3 2 = Some g' ∧ settled g'.
Proof.
  intros g. eexists. split; [reflexivity|].
  apply (winning_move_settles g _ 3 2); [reflexivity|reflexivity|reflexivity|].
  exists [57; 57; 57; 57]. split; [reflexivity|]. by repeat constructor.
Qed.

(** What keeps a settled game fixed is that its player to move has no
    token left to move; nothing else records the end of the game.  On a
    board set up by hand, with clicks that carry their token, a left-over
    [next_turn] can pass the turn while the winner's last token is still on
    its way, and then the other player rolls and moves after the
    announcement.  Play from a fresh game does not lead to such a state
    ([play_from_start]): no token leaves base there, so nobody wins. *)
Example game_over_not_terminal :
  let g := mkGame [[57; 57; 57; 55]; [13; -1; -1; -1]] 0 None 2 2 [] [] in
  let over := mkGame [[57; 57; 57; 57]; [13; -1; -1; -1]] 1 None 2 2 []
                     [DlgGameOver 0] in
  let later := mkGame [[57; 57; 57; 57]; [14; -1; -1; -1]] 1 (Some 4) 2 2
                      [CbStepEnd 1 0 [15; 16; 17] 4] [DlgGameOver 0] in
  run [RollClick 3; RollClick 2; TokenClick (Some (0, 3)%nat);
       Fire 0 0 0; Fire 0 0 0; Fire 0 0 0] g = Some over ∧
  (check_winner over).1 = true ∧
  run [RollClick 4; TokenClick (Some (1, 0)%nat)] over = Some later ∧
  dice_roll later ≠ dice_roll over ∧
  players later ≠ players over.
Proof.
  intros g over later.
  split_and!; [reflexivity | reflexivity | reflexivity | done | done].
Qed.

(** * Path model: proofs *)

Lemma PATH_COORDS_length : length Board.PATH_COORDS = 52%nat.
Proof. reflexivity. Qed.

(** The list of grid cells has 46 entries; the last six track cells are
    copies of the 46th. *)
Lemma PATH_COORDS_padding :
  length Board.cells = 46%nat ∧
  drop 45 Board.PATH_COORDS = replicate 7 (Board.pix 8 6).
Proof. split; reflexivity. Qed.

(** C10 on the code.  For each of the four players [HOME_COORDS] holds six
    points, the sixth being the board centre, but they are interpolated
    from the cell [PATH_COORDS[START_POSITIONS[p]]] (cells 0, 13, 26, 39),
    not from the entry cell [PATH_COORDS[HOME_ENTRY[p]]] (cells 51, 12, 25,
    38): the two cells differ, and so do the first five points of the two
    interpolations. *)
Theorem home_coords_built_from_start_cell :
  Forall
    (λ p, ∃ start entry s e,
        START_POSITIONS !! p = Some start ∧
        HOME_ENTRY !! p = Some entry ∧
        Board.PATH_COORDS !! Z.to_nat start = Some s ∧
        Board.PATH_COORDS !! Z.to_nat entry = Some e ∧
        Board.HOME_COORDS p = Some (Board.home_stretch_from s) ∧
        length (Board.home_stretch_from s) = 6%nat ∧
        (Board.point_eqb Board.CENTER <$> last (Board.home_stretch_from s))
          = Some true ∧
        Board.point_eqb s e = false ∧
        forallb (λ ab, negb (Board.point_eqb ab.1 ab.2))
                (zip (take 5 (Board.home_stretch_from s))
                     (take 5 (Board.home_stretch_from e))) = true)
    (seq 0 4).
Proof.
  repeat constructor; do 4 eexists;
    (split; [reflexivity|]); (split; [reflexivity|]);
    (split; [reflexivity|]); (split; [reflexivity|]);
    split_and!; vm_compute; reflexivity.
Qed.

(** * Play from a fresh game *)





(** A click on a token outside the legal set, and a click that carries no
    data. *)
Example click_not_legal_changes_nothing :
  let g := mkGame [[10; 56; -1; -1]; [-1; -1; -1; -1]] 0 (Some 3) 2 2 [] [] in
  rejected g (TokenClick (Some (0, 1)%nat)) ∧
  step g (TokenClick (Some (0, 1)%nat)) = Some g ∧
  step g (TokenClick None) = Some g.
Proof.
  intros g. split_and!; [|reflexivity|reflexivity].
  apply (rej_click_not_legal g 1 3 56); reflexivity.
Qed.

(** X19. In play the defect of the path keeps the board empty: from a
    fresh game, whatever is rolled, clicked or comes due, every token is
    still in base. *)
Theorem tokens_never_leave_base (n h : nat) (es : list event) (g : Game) :
  run es (init_players n h) = Some g →
  players g = players (init_players n h).
Proof.
  assert (∀ es g0 g,
            all_in_base g0 → no_step_pending g0 →
            run es g0 = Some g → players g = players g0) as Hrun.
  { clear. induction es as [|e es IH]; intros g0 g Hbase Hns.
    - by intros [= <-].
    - cbn [run]. destruct (step g0 e) as [g1|] eqn:Hstep; [|done].
      cbn [mbind option_bind]. intros Hrest.
      destruct (step_in_base _ _ _ Hbase Hns Hstep) as [Hp Hns1].
      rewrite <- Hp. apply (IH g1 g); [|done|done].
      unfold all_in_base. by rewrite Hp. }
  apply Hrun.
  - unfold all_in_base. cbn [init_players players].
    apply Forall_replicate. by apply Forall_replicate.
  - constructor.
Qed.

(** A fresh game, a roll of 6 and a click on a token in base: the game is
    back where it started. *)
Example fresh_game_six_click :
  run [RollClick 6; TokenClick (Some (0, 0)%nat)] (init_players 2 1)
  = Some (init_players 2 1).
Proof. reflexivity. Qed.

(** * More on the movement engine *)

Lemma dist_to_entry_after (entry pos roll : Z) :
  0 <= entry < 52 → 0 <= pos < 52 →
  0 <= roll <= dist_to_entry entry pos →
  0 <= (pos + roll) `mod` 52 < 52 ∧
  dist_to_entry entry ((pos + roll) `mod` 52)
  = dist_to_entry entry pos - roll.
Proof.
  intros He Hp. unfold dist_to_entry, MAIN_PATH_LEN.
  case_bool_decide as Hge; intros Hr.
  - rewrite Z.mod_small by lia. split; [lia|].
    rewrite bool_decide_eq_true_2 by lia. lia.
  - destruct (decide (pos + roll < 52)) as [Hlt|Hwrap].
    + rewrite Z.mod_small by lia. split; [lia|].
      rewrite bool_decide_eq_false_2 by lia. lia.
    + replace (pos + roll) with (pos + roll - 52 + 1 * 52) by lia.
      rewrite Z.mod_add by lia. rewrite Z.mod_small by lia. split; [lia|].
      rewrite bool_decide_eq_true_2 by lia. lia.
Qed.

(** X1. For a token on the board the legal rolls are exactly those that do
    not exceed the number of steps left to the finish cell, and a legal
    move uses up exactly [roll] of them: the landing is on the board and
    has [roll] fewer steps left. *)
Theorem legal_iff_within_remaining (pos roll : Z) (p : nat) (entry : Z) :
  HOME_ENTRY !! p = Some entry →
  0 <= pos <= 57 → 1 <= roll →
  can_move_token pos p roll = Some (bool_decide (roll <= remaining entry pos)) ∧
  (roll <= remaining entry pos →
   ∃ new, advance_position pos roll p = Some new ∧
          0 <= new <= 57 ∧
          remaining entry new = remaining entry pos - roll).
Proof.
  intros He Hpos Hroll. pose proof (HOME_ENTRY_range _ _ He) as Hre.
  unfold can_move_token, advance_position, remaining,
    MAIN_PATH_LEN, HOME_STRETCH_LEN.
  rewrite He. cbn [mbind option_bind].
  rewrite (bool_decide_eq_false_2 (pos = -1)) by lia.
  destruct (decide (pos >= 52)) as [Hhome|Htrack].
  - rewrite !(bool_decide_eq_true_2 (pos >= 52)) by done. split.
    + f_equal. apply bool_decide_ext. lia.
    + intros Hle. exists (pos + roll).
      rewrite (bool_decide_eq_true_2 (pos + roll <= 52 + 6 - 1)) by lia.
      rewrite (bool_decide_eq_true_2 (pos + roll >= 52)) by lia.
      split_and!; try done; lia.
  - rewrite !(bool_decide_eq_false_2 (pos >= 52)) by done.
    pose proof (dist_to_entry_range entry pos Hre ltac:(lia)) as Hd.
    destruct (decide (roll > dist_to_entry entry pos)) as [Hgt|Hle].
    + rewrite !(bool_decide_eq_true_2 (roll > dist_to_entry entry pos))
        by done.
      split.
      * f_equal. apply bool_decide_ext. lia.
      * intros Hrem.
        exists (52 + (roll - dist_to_entry entry pos - 1)).
        rewrite (bool_decide_eq_true_2
                   (52 + (roll - dist_to_entry entry pos - 1) <= 52 + 6 - 1))
          by lia.
        rewrite (bool_decide_eq_true_2
                   (52 + (roll - dist_to_entry entry pos - 1) >= 52)) by lia.
        split_and!; try done; lia.
    + rewrite !(bool_decide_eq_false_2 (roll > dist_to_entry entry pos))
        by done.
      split.
      * f_equal. symmetry. apply bool_decide_eq_true_2. lia.
      * intros _.
        destruct (dist_to_entry_after entry pos roll) as [Hm Hdm];
          [lia..|].
        exists ((pos + roll) `mod` 52).
        rewrite (bool_decide_eq_false_2 ((pos + roll) `mod` 52 >= 52))
          by lia.
        split_and!; try done; lia.
Qed.

Lemma legal_iff_within_remaining_witness :
  can_move_token 50 0 3 = Some (bool_decide (3 <= remaining 51 50)) ∧
  (3 <= remaining 51 50 →
   ∃ new, advance_position 50 3 0 = Some new ∧
          0 <= new <= 57 ∧
          remaining 51 new = remaining 51 50 - 3).
Proof.
  apply (legal_iff_within_remaining 50 3 0 51); [reflexivity | lia | lia].
Defined.

(** X2. Moves compose: for a token on the board, moving [a] steps to a
    landing and then [b] steps from there is the same as moving [a + b]
    steps at once (also when the longer move has no landing). *)
Theorem advance_position_add (p : nat) (pos a b mid : Z) :
  is_Some (HOME_ENTRY !! p) →
  0 <= pos <= 57 → 1 <= a → 1 <= b →
  advance_position pos a p = Some mid → mid ≠ -1 →
  advance_position pos (a + b) p = advance_position mid b p.
Proof.
  intros He Hpos Ha Hb.
  assert (∀ (n : nat) pos mid,
            0 <= pos <= 57 →
            advance_position pos (Z.of_nat (S n)) p = Some mid → mid ≠ -1 →
            advance_position pos (Z.of_nat (S n) + b) p
            = advance_position mid b p) as Hind.
  { clear pos mid Hpos a Ha. induction n as [|n IH]; intros pos mid Hpos Hadv Hmid.
    - assert (advance_position pos 1 p = Some mid) as Hadv' by exact Hadv.
      destruct (advance_position_succ pos b mid p He Hpos Hb Hadv' Hmid)
        as [_ <-]. f_equal. lia.
    - replace (Z.of_nat (S (S n))) with (Z.of_nat (S n) + 1) in * by lia.
      destruct (advance_position_first pos (Z.of_nat (S n)) mid p He Hpos
                  ltac:(lia) Hadv Hmid) as (new & Hnew & Hne).
      destruct (advance_position_succ pos (Z.of_nat (S n)) new p He Hpos
                  ltac:(lia) Hnew Hne) as [Hvalid Heq].
      rewrite Heq in Hadv.
      rewrite <- (IH new mid Hvalid Hadv Hmid).
      replace (Z.of_nat (S n) + 1 + b) with (Z.of_nat (S n) + b + 1) by lia.
      by destruct (advance_position_succ pos (Z.of_nat (S n) + b) new p He
                     Hpos ltac:(lia) Hnew Hne). }
  intros Hadv Hmid.
  destruct (Z.to_nat a) as [|n] eqn:Hn; [lia|].
  assert (a = Z.of_nat (S n)) as -> by lia.
  by apply Hind.
Qed.

Lemma advance_position_add_witness :
  advance_position 49 (2 + 4) 0 = advance_position 51 4 0.
Proof.
  apply (advance_position_add 0 49 2 4 51);
    [by eexists | lia | lia | lia | reflexivity | lia].
Defined.

(** ** The legal set, once more *)

Lemma movable_from_sorted (idx : nat) (roll : Z) :
  ∀ toks i ms,
    movable_from i toks idx roll = Some ms →
    StronglySorted lt ms ∧ Forall (λ t, i ≤ t)%nat ms.
Proof.
  induction toks as [|pos toks IH]; intros i ms Hm.
  - injection Hm as <-. split; constructor.
  - cbn [movable_from] in Hm.
    destruct (can_move_token pos idx roll) as [b|]; [|done].
    cbn [mbind option_bind] in Hm.
    destruct (movable_from (S i) toks idx roll) as [ms'|] eqn:Hms; [|done].
    cbn [mbind option_bind] in Hm. injection Hm as <-.
    destruct (IH (S i) ms' Hms) as [Hs Hge].
    assert (Forall (λ t, i ≤ t)%nat ms') as Hge'.
    { eapply Forall_impl; [exact Hge|]. intros t Ht. simpl in *. lia. }
    destruct b; [|done]. split.
    + constructor; [done|]. eapply Forall_impl; [exact Hge|].
      intros t Ht. simpl in *. lia.
    + by constructor.
Qed.

(** X3. [movable_tokens] lists exactly the tokens that [can_move_token]
    accepts, each once and in the order of [self.tokens]. *)
Theorem movable_tokens_exact (toks : list Z) (idx : nat) (roll : Z)
        (ms : list nat) :
  movable_tokens toks idx roll = Some ms →
  StronglySorted lt ms ∧ NoDup ms ∧
  ∀ t, t ∈ ms ↔ ∃ pos, toks !! t = Some pos ∧
                       can_move_token pos idx roll = Some true.
Proof.
  intros Hm.
  destruct (movable_from_sorted idx roll toks 0 ms Hm) as [Hs _].
  split; [done|]. split; [|by apply movable_tokens_spec].
  clear Hm. induction Hs as [|t ms Hs IH Hall]; constructor; [|done].
  intros Hin. rewrite Forall_forall in Hall. specialize (Hall t Hin). lia.
Qed.

Lemma movable_tokens_exact_witness :
  StronglySorted lt [0; 2]%nat ∧ NoDup [0; 2]%nat ∧
  ∀ t, t ∈ [0; 2]%nat ↔ ∃ pos, [10; 56; 30; -1] !! t = Some pos ∧
                               can_move_token pos 1 3 = Some true.
Proof. apply (movable_tokens_exact [10; 56; 30; -1] 1 3). reflexivity. Defined.

(** X4. When a roll is skipped.  For a roll in [1..6] no token of a player
    can move exactly when every token is either in base while the roll is
    not a 6, or in the home stretch and too close to the finish cell; a
    token on the shared track can always move. *)
Theorem no_move_iff (toks : list Z) (idx : nat) (roll : Z) :
  is_Some (HOME_ENTRY !! idx) →
  Forall valid_pos toks → 1 <= roll <= 6 →
  movable_tokens toks idx roll = Some [] ↔
  Forall (λ pos, pos = -1 ∧ roll ≠ 6 ∨ pos >= 52 ∧ pos + roll > 57) toks.
Proof.
  intros He Hvalid Hroll.
  destruct (movable_from_total idx roll He toks 0) as [ms Hms].
  unfold movable_tokens. rewrite Hms.
  pose proof (movable_tokens_spec toks idx roll ms Hms) as Hspec.
  assert (∀ pos, valid_pos pos →
                 can_move_token pos idx roll = Some true ↔
                 ¬ (pos = -1 ∧ roll ≠ 6 ∨ pos >= 52 ∧ pos + roll > 57))
    as Hone.
  { intros pos Hv. destruct He as [entry He].
    pose proof (HOME_ENTRY_range _ _ He) as Hre.
    unfold can_move_token, MAIN_PATH_LEN, HOME_STRETCH_LEN. rewrite He.
    cbn [mbind option_bind].
    pose proof (dist_to_entry_range entry pos Hre) as Hd.
    unfold valid_pos in Hv.
    repeat case_bool_decide; split; intros H'; try done; try lia;
      try (exfalso; apply H'; lia). }
  rewrite Forall_lookup. split.
  - intros [= ->] t pos Ht.
    destruct (decide (pos = -1 ∧ roll ≠ 6 ∨ pos >= 52 ∧ pos + roll > 57))
      as [|Hn]; [done|]. exfalso.
    rewrite Forall_lookup in Hvalid.
    apply (Hone pos (Hvalid _ _ Ht)) in Hn.
    assert (t ∈ []) as Hin by (apply Hspec; eauto).
    by apply elem_of_nil in Hin.
  - intros Hall. f_equal. destruct ms as [|t ms]; [done|]. exfalso.
    assert (t ∈ t :: ms) as Hin by left.
    apply Hspec in Hin as (pos & Ht & Hc).
    rewrite Forall_lookup in Hvalid.
    apply (Hone pos (Hvalid _ _ Ht)) in Hc. apply Hc. by apply (Hall t).
Qed.

Lemma no_move_iff_witness :
  movable_tokens [-1; 55; 57; -1] 0 3 = Some [] ↔
  Forall (λ pos, pos = -1 ∧ 3 ≠ 6 ∨ pos >= 52 ∧ pos + 3 > 57)
         [-1; 55; 57; -1].
Proof.
  apply (no_move_iff [-1; 55; 57; -1] 0 3).
  - by eexists.
  - repeat constructor; unfold valid_pos; lia.
  - lia.
Defined.

(** * More on the turn controller *)

(** ** The positions a game holds *)

Lemma advance_one_valid pos p new :
  valid_pos pos → advance_position pos 1 p = Some new → valid_pos new.
Proof.
  unfold valid_pos, advance_position, MAIN_PATH_LEN, HOME_STRETCH_LEN.
  intros Hv.
  destruct (HOME_ENTRY !! p) as [entry|] eqn:He; cbn [mbind option_bind].
  - pose proof (HOME_ENTRY_range _ _ He) as Hre.
    pose proof (Z.mod_pos_bound (pos + 1) 52 ltac:(lia)) as Hm.
    repeat case_bool_decide; intros ?; simplify_eq; lia.
  - repeat case_bool_decide; intros ?; simplify_eq; lia.
Qed.

(** Whatever the roll, legal or not, the path of [make_move] holds only
    positions of the board. *)
Lemma path_from_valid p :
  ∀ n cur path,
    valid_pos cur → path_from n cur p = Some path →
    Forall (λ x, 0 <= x <= 57) path.
Proof.
  induction n as [|n IH]; intros cur path Hv; cbn [path_from].
  - by intros [= <-].
  - destruct (advance_position cur 1 p) as [new|] eqn:Hnew; [|done].
    cbn [mbind option_bind]. case_bool_decide as Hne; [by intros [= <-]|].
    pose proof (advance_one_valid _ _ _ Hv Hnew) as Hvn.
    destruct (path_from n new p) as [rest|] eqn:Hrest; [|done].
    cbn [mbind option_bind]. intros [= <-].
    constructor; [unfold valid_pos in Hvn; lia|]. by apply (IH new).
Qed.

Lemma path_from_total p :
  is_Some (HOME_ENTRY !! p) → ∀ n cur, is_Some (path_from n cur p).
Proof.
  intros He. induction n as [|n IH]; intros cur; [by eexists|].
  cbn [path_from].
  destruct (advance_position_total cur 1 p He) as [new ->].
  cbn [mbind option_bind]. case_bool_decide; [by eexists|].
  destruct (IH new) as [rest ->]. by eexists.
Qed.

Lemma wf_token_pos g p t pos :
  wf_game g = true → token_pos g p t = Some pos →
  valid_pos pos ∧ (p < num_players g)%nat ∧ (t < TOKENS_PER_PLAYER)%nat.
Proof.
  intros (Hlen & _ & _ & Hall)%wf_game_spec. unfold token_pos.
  destruct (players g !! p) as [toks|] eqn:Hp; [|done].
  cbn [mbind option_bind]. intros Ht.
  rewrite Forall_lookup in Hall. destruct (Hall _ _ Hp) as [Hl Hv].
  rewrite Forall_lookup in Hv. split; [by apply (Hv t)|].
  apply lookup_lt_Some in Hp, Ht. lia.
Qed.

Lemma wf_token_pos_is_Some g p t :
  wf_game g = true → (p < num_players g)%nat → (t < TOKENS_PER_PLAYER)%nat →
  is_Some (token_pos g p t).
Proof.
  intros (Hlen & _ & _ & Hall)%wf_game_spec Hp Ht. unfold token_pos.
  destruct (lookup_lt_is_Some_2 (players g) p) as [toks Htoks]; [lia|].
  rewrite Htoks. cbn [mbind option_bind].
  rewrite Forall_lookup in Hall. destruct (Hall _ _ Htoks) as [Hl _].
  apply lookup_lt_is_Some. lia.
Qed.

Lemma sound_update_ui g : sound g → sound (update_ui g).
Proof.
  intros [Hwf Htm]. split.
  - apply (wf_game_players g); try done.
    + apply players_update_ui.
    + unfold update_ui. by destruct (_ && _).
    + apply current_player_update_ui.
  - unfold update_ui. destruct (_ && _); [|done].
    cbn [after set_timers timers]. apply Forall_app. split; [done|].
    by constructor.
Qed.

Lemma next_turn_total g : wf_game g = true → is_Some (next_turn g).
Proof.
  intros (_ & Hn & _)%wf_game_spec. unfold next_turn, check_winner.
  destruct (find_winner 0 (players g)); [by eexists|].
  rewrite bool_decide_eq_false_2 by lia. by eexists.
Qed.

Lemma sound_next_turn g g' : sound g → next_turn g = Some g' → sound g'.
Proof.
  intros [Hwf Htm]. unfold next_turn, check_winner.
  destruct (find_winner 0 (players g)) as [w|].
  - intros [= <-]. split; [|done]. by apply (wf_game_players g).
  - case_bool_decide as Hn; [done|]. intros [= <-].
    apply sound_update_ui. split; [|done].
    apply wf_game_spec in Hwf as (Hl & Hnp & Hc & Hall).
    apply wf_game_spec.
    cbn [set_dice_roll set_current_player players num_players current_player].
    repeat split; try done; try lia. apply Nat.mod_upper_bound. lia.
Qed.

Lemma check_capture_total g p t :
  is_Some (token_pos g p t) → is_Some (check_capture g p t).
Proof. intros [pos Hp]. unfold check_capture. rewrite Hp. by eexists. Qed.

Lemma on_done_total g p t roll :
  wf_game g = true → is_Some (token_pos g p t) → is_Some (on_done g p t roll).
Proof.
  intros Hwf [pos Hp]. unfold on_done. rewrite Hp. cbn [mbind option_bind].
  assert (∃ g1, (if bool_decide (pos >= 0 ∧ pos < MAIN_PATH_LEN)
                 then check_capture g p t else Some g) = Some g1 ∧
                wf_game g1 = true) as (g1 & -> & Hwf1).
  { destruct (bool_decide _); [|by exists g].
    destruct (check_capture_total g p t ltac:(eauto)) as [g1 Hc].
    exists g1. split; [done|]. by apply (wf_check_capture _ _ _ _ Hc). }
  cbn [mbind option_bind]. destruct (bool_decide (roll ≠ 6)); [|by eexists].
  apply next_turn_total. by apply (wf_game_players g1).
Qed.

(** C8. In a well-formed game, when a move has put its token on position
    [pos], the callback [on_done] of the move returns, and afterwards every
    token reads: [-1] if it belongs to another player and stood on [pos]
    with [pos] a shared-track cell [0..51]; its old position otherwise.  So
    every opposing token on the landing cell is sent to base, the capturing
    token and its player's other tokens stay, tokens on other cells stay,
    and a landing in the home stretch or a stay in base captures
    nothing. *)
Theorem capture_resolution (g : Game) (p t : nat) (roll pos : Z) :
  wf_game g = true →
  token_pos g p t = Some pos →
  ∃ g',
    on_done g p t roll = Some g' ∧
    ∀ q u,
      token_pos g' q u =
      (λ old, if bool_decide (q ≠ p ∧ old = pos ∧ 0 <= pos <= 51)
              then -1 else old) <$> token_pos g q u.
Proof.
  intros Hwf Hpos.
  destruct (on_done_total g p t roll Hwf) as [g' Hdone]; [by eexists|].
  exists g'. split; [done|]. by apply (on_done_positions g g' p t roll pos).
Qed.

Lemma capture_resolution_witness :
  let g := mkGame [[13; -1; -1; -1]; [13; 20; 13; 52]] 0 (Some 3) 2 2 [] [] in
  ∃ g',
    on_done g 0 0 3 = Some g' ∧
    ∀ q u,
      token_pos g' q u =
      (λ old, if bool_decide (q ≠ 0%nat ∧ old = 13 ∧ 0 <= 13 <= 51)
              then -1 else old) <$> token_pos g q u.
Proof.
  intros g. apply (capture_resolution g 0 0 3 13); reflexivity.
Defined.

(** Scenario 3 of the specification: both opposing tokens on the landing
    cell go back to base, the others stay. *)
Example capture_scenario_3 :
  on_done (mkGame [[13; -1; -1; -1]; [13; 20; 13; 52]] 0 (Some 3) 2 2 [] [])
          0 0 3
  = Some (mkGame [[13; -1; -1; -1]; [-1; 20; -1; 52]] 1 None 2 2 [] []).
Proof. reflexivity. Qed.

(** A landing in the home stretch and a stay in base capture nothing. *)
Example no_capture_off_track :
  on_done (mkGame [[52; -1; -1; -1]; [52; -1; 13; 0]] 0 (Some 3) 2 2 [] [])
          0 0 3
  = Some (mkGame [[52; -1; -1; -1]; [52; -1; 13; 0]] 1 None 2 2 [] []) ∧
  on_done (mkGame [[52; -1; -1; -1]; [52; -1; 13; 0]] 0 (Some 6) 2 2 [] [])
          0 1 6
  = Some (mkGame [[52; -1; -1; -1]; [52; -1; 13; 0]] 0 None 2 2 [] []).
Proof. split; reflexivity. Qed.

Lemma sound_on_done g p t roll g' :
  sound g → on_done g p t roll = Some g' → sound g'.
Proof.
  intros [Hwf Htm]. unfold on_done.
  destruct (token_pos g p t) as [pos|]; [|done]. cbn [mbind option_bind].
  destruct (if bool_decide (pos >= 0 ∧ pos < MAIN_PATH_LEN)
            then check_capture g p t else Some g) as [g1|] eqn:Hg1; [|done].
  cbn [mbind option_bind].
  assert (sound g1) as [Hwf1 Htm1].
  { destruct (bool_decide _).
    - split; [by apply (wf_check_capture _ _ _ _ Hg1)|].
      unfold check_capture in Hg1.
      destruct (token_pos g p t); [|done]. by injection Hg1 as <-.
    - by injection Hg1 as <-. }
  assert (sound (set_dice_roll None g1)) as Hs.
  { split; [by apply (wf_game_players g1)|done]. }
  destruct (bool_decide (roll ≠ 6)).
  - by apply sound_next_turn.
  - intros [= <-]. by apply sound_update_ui.
Qed.

Lemma sound_animate_move g p t path roll g' :
  sound g → Forall valid_pos path →
  animate_move g p t path roll = Some g' → sound g'.
Proof.
  intros Hs Hpath. destruct path as [|x rest]; cbn [animate_move].
  - by apply sound_on_done.
  - apply Forall_cons in Hpath as [Hx Hrest]. intros [= <-].
    destruct Hs as [Hwf Htm]. split.
    + apply (wf_game_players (set_pos p t x g)); try done.
      by apply wf_set_pos.
    + cbn [after set_timers timers set_pos set_players].
      apply Forall_app. split; [done|]. by constructor.
Qed.

Lemma sound_make_move g p t g' :
  sound g → make_move g p t = Some g' → sound g'.
Proof.
  intros Hs. unfold make_move.
  destruct (dice_roll g) as [roll|]; [|done]. cbn [mbind option_bind].
  destruct (token_pos g p t) as [old|] eqn:Hp; [|done].
  cbn [mbind option_bind].
  destruct (make_move_path old roll p) as [path|] eqn:Hpath; [|done].
  cbn [mbind option_bind]. apply sound_animate_move; [done|].
  destruct Hs as [Hwf _].
  destruct (wf_token_pos _ _ _ _ Hwf Hp) as [Hv _].
  eapply Forall_impl; [by apply (path_from_valid p (Z.to_nat roll) old)|].
  intros y Hy. by right.
Qed.

Lemma sound_step (g g' : Game) (e : event) :
  sound g → step g e = Some g' → sound g'.
Proof.
  intros Hs. destruct e as [r|[[p t]|]|k r c]; cbn [step].
  - unfold roll_dice. destruct (dice_roll g); [by intros [= <-]|].
    case_bool_decide; [by intros [= <-]|]. cbv zeta.
    set (g1 := set_dice_roll (Some r) g).
    assert (sound g1) as Hs1.
    { destruct Hs as [Hwf Htm]. split; [by apply (wf_game_players g)|done]. }
    destruct (players g1 !! current_player g1) as [toks|]; [|done].
    cbn [mbind option_bind].
    destruct (movable_tokens toks (current_player g1) r) as [[|m ms]|];
      [| |done]; cbn [mbind option_bind]; intros [= <-].
    + destruct Hs as [Hwf Htm]. split; [by apply (wf_game_players g)|].
      cbn [after set_timers timers set_dice_roll].
      apply Forall_app. split; [done|]. by constructor.
    + by apply sound_update_ui.
  - unfold on_token_clicked. case_bool_decide; [by intros [= <-]|].
    destruct (dice_roll g) as [roll|].
    + destruct (token_pos g p t) as [pos|]; [|done].
      cbn [mbind option_bind].
      destruct (can_move_token pos p roll) as [[|]|]; [| |done];
        cbn [mbind option_bind]; [|by intros [= <-]].
      by apply sound_make_move.
    + intros [= <-]. destruct Hs as [Hwf Htm].
      split; [by apply (wf_game_players g)|done].
  - by intros [= <-].
  - destruct (timers g !! k) as [cb|] eqn:Hk; [|by intros [= <-]].
    set (g0 := set_timers (delete k (timers g)) g).
    assert (sound g0) as Hs0.
    { destruct Hs as [Hwf Htm]. split; [by apply (wf_game_players g)|].
      by apply Forall_delete. }
    assert (timer_ok cb) as Hcb.
    { destruct Hs as [_ Htm]. rewrite Forall_lookup in Htm.
      by apply (Htm k). }
    destruct cb as [| |p t|p t rest roll]; cbn [fire].
    + by apply sound_next_turn.
    + unfold ai_roll. cbv zeta. set (g1 := set_dice_roll (Some r) g0).
      assert (sound g1) as Hs1.
      { destruct Hs0 as [Hwf Htm].
        split; [by apply (wf_game_players g0)|done]. }
      destruct (players g1 !! current_player g1) as [toks|]; [|done].
      cbn [mbind option_bind].
      destruct (movable_tokens toks (current_player g1) r) as [[|m ms]|];
        [| |done]; cbn [mbind option_bind].
      * intros [= <-]. destruct Hs1 as [Hwf Htm].
        split; [by apply (wf_game_players g1)|].
        cbn [after set_timers timers set_dice_roll].
        apply Forall_app. split; [done|]. by constructor.
      * destruct (capture_choice g1 (current_player g1) r (m :: ms))
          as [choice|]; [|done]. cbn [mbind option_bind].
        destruct (match choice with
                  | Some t => Some t
                  | None => (m :: ms) !! (c `mod` length (m :: ms))%nat
                  end) as [t|]; [|done].
        cbn [mbind option_bind]. intros [= <-]. destruct Hs1 as [Hwf Htm].
        split; [by apply (wf_game_players g1)|].
        cbn [after set_timers timers].
        apply Forall_app. split; [done|]. by constructor.
    + by apply sound_make_move.
    + by apply sound_animate_move.
Qed.

(** X5. The data model is kept.  From a well-formed game whose animations
    in flight carry positions of the data model, whatever events follow, as
    long as the handlers return, the game stays such a game: each player
    keeps four tokens, every token is in base, on the track or in the home
    stretch, and the player to move exists. *)
Theorem run_keeps_sound (es : list event) (g g' : Game) :
  sound g → run es g = Some g' → sound g'.
Proof.
  revert g. induction es as [|e es IH]; intros g Hs; cbn [run].
  - by intros [= <-].
  - destruct (step g e) as [g1|] eqn:Hstep; [|done].
    cbn [mbind option_bind]. apply IH. by apply (sound_step g g1 e).
Qed.

Lemma run_keeps_sound_witness :
  sound (mkGame [[13; 20; -1; -1]; [-1; 30; -1; -1]] 1 None 2 2 [] []).
Proof.
  apply (run_keeps_sound
           (RollClick 3 :: TokenClick (Some (0, 0)%nat) :: repeat (Fire 0 0 0) 3)
           (mkGame [[10; 20; -1; -1]; [13; 30; -1; -1]] 0 None 2 2 [] [])).
  - split; [reflexivity|constructor].
  - reflexivity.
Defined.

(** ** Requests and rolls *)

Lemma make_move_total g p t :
  wf_game g = true → is_Some (dice_roll g) → is_Some (token_pos g p t) →
  is_Some (make_move g p t).
Proof.
  intros Hwf [roll Hd] [old Hp]. unfold make_move. rewrite Hd, Hp.
  cbn [mbind option_bind].
  destruct (wf_token_pos _ _ _ _ Hwf Hp) as (_ & Hlt & _).
  assert (is_Some (HOME_ENTRY !! p)) as He.
  { apply wf_game_spec in Hwf as (_ & Hn & _).
    apply lookup_lt_is_Some. simpl. lia. }
  destruct (path_from_total p He (Z.to_nat roll) old) as [path Hpath].
  unfold make_move_path. rewrite Hpath. cbn [mbind option_bind].
  destruct path as [|x rest]; cbn [animate_move]; [|by eexists].
  apply on_done_total; [done|by eexists].
Qed.

(** X6. In a well-formed game no request of the person at the screen makes
    a handler raise: a press of the roll button and a click on any of the
    four tokens of any player always return, whatever the state of the
    turn and whatever is rolled. *)
Theorem human_request_returns (g : Game) (e : event) :
  wf_game g = true → human_request e → is_Some (step g e).
Proof.
  intros Hwf He. pose proof (wf_current_entry g Hwf) as Hentry.
  destruct e as [r|[[p t]|]|k r c]; cbn [step human_request] in *;
    [| |by eexists|done].
  - unfold roll_dice. destruct (dice_roll g); [by eexists|].
    case_bool_decide; [by eexists|]. cbv zeta.
    set (g1 := set_dice_roll (Some r) g).
    change (players g1) with (players g).
    change (current_player g1) with (current_player g).
    destruct (wf_current_tokens g Hwf) as (toks & -> & _).
    cbn [mbind option_bind].
    destruct (movable_from_total (current_player g) r Hentry toks 0)
      as [ms Hms].
    unfold movable_tokens. rewrite Hms. cbn [mbind option_bind].
    destruct ms; by eexists.
  - unfold on_token_clicked. case_bool_decide as Hp; [by eexists|].
    assert (p = current_player g) as -> by (by destruct (decide (p = current_player g))).
    destruct (dice_roll g) as [roll|] eqn:Hd; [|by eexists].
    destruct (wf_token_pos_is_Some g (current_player g) t Hwf) as [pos Hpos];
      [by apply wf_game_spec in Hwf as (_ & _ & ? & _)|done|].
    rewrite Hpos. cbn [mbind option_bind].
    destruct (can_move_token_total pos (current_player g) roll Hentry)
      as [b ->].
    cbn [mbind option_bind]. destruct b; [|by eexists].
    apply make_move_total; [done|by rewrite Hd|by rewrite Hpos].
Qed.

Lemma human_request_returns_witness :
  is_Some (step (mkGame [[57; 56; -1; 51]; [0; 12; 52; -1]] 1 (Some 6) 2 2
                        [CbNextTurn] [])
                (TokenClick (Some (1, 2)%nat))).
Proof.
  apply human_request_returns; [reflexivity|]. simpl. unfold TOKENS_PER_PLAYER. lia.
Defined.

(** X7. What a human player's roll leads to.  In a well-formed game that
    awaits a human player's roll, [roll_dice] keeps positions and the
    player to move; the roll stays pending exactly when some token of that
    player can move, and then nothing is scheduled; otherwise the roll is
    cleared at once and [next_turn] is scheduled. *)
Theorem roll_dice_outcome (g : Game) (r : Z) :
  wf_game g = true → dice_roll g = None →
  (current_player g < human_count g)%nat →
  ∃ g', roll_dice g r = Some g' ∧
        players g' = players g ∧
        current_player g' = current_player g ∧
        (dice_roll g' = Some r ∨ dice_roll g' = None) ∧
        (dice_roll g' = Some r ↔
         ∃ t pos, token_pos g (current_player g) t = Some pos ∧
                  can_move_token pos (current_player g) r = Some true) ∧
        timers g' = timers g ++ match dice_roll g' with
                            | Some _ => []
                            | None => [CbNextTurn]
                            end.
Proof.
  intros Hwf Hd Hh. pose proof (wf_current_entry g Hwf) as Hentry.
  unfold roll_dice. rewrite Hd.
  rewrite (bool_decide_eq_false_2 (human_count g ≤ current_player g)%nat)
    by lia.
  cbv zeta. set (g1 := set_dice_roll (Some r) g).
  change (players g1) with (players g).
  change (current_player g1) with (current_player g).
  destruct (wf_current_tokens g Hwf) as (toks & Htoks & _).
  rewrite Htoks. cbn [mbind option_bind].
  destruct (movable_from_total (current_player g) r Hentry toks 0)
    as [ms Hms].
  unfold movable_tokens. rewrite Hms. cbn [mbind option_bind].
  pose proof (movable_tokens_spec toks (current_player g) r ms Hms) as Hspec.
  assert (∀ t pos, token_pos g (current_player g) t = Some pos
                   ↔ toks !! t = Some pos) as Htp.
  { intros t pos. unfold token_pos. by rewrite Htoks. }
  destruct ms as [|m ms].
  - eexists. split; [done|]. cbn [after set_timers set_dice_roll players
      current_player dice_roll timers]. split_and!; try done; [by right|].
    split; [done|]. intros (t & pos & Ht & Hc). exfalso.
    assert (t ∈ []) as Hin by (apply Hspec; exists pos; by rewrite <- Htp).
    by apply elem_of_nil in Hin.
  - rewrite update_ui_human by done. eexists. split; [done|].
    cbn [g1 set_dice_roll players current_player dice_roll timers].
    split_and!; try done; [by left| |by rewrite app_nil_r].
    split; [|done]. intros _.
    assert (m ∈ m :: ms) as Hin by left.
    apply Hspec in Hin as (pos & Ht & Hc). exists m, pos. by rewrite Htp.
Qed.

Lemma roll_dice_outcome_witness :
  let g := mkGame [[-1; 55; -1; -1]; [-1; -1; -1; -1]] 0 None 2 2 [] [] in
  ∃ g', roll_dice g 3 = Some g' ∧
        players g' = players g ∧
        current_player g' = current_player g ∧
        (dice_roll g' = Some 3 ∨ dice_roll g' = None) ∧
        (dice_roll g' = Some 3 ↔
         ∃ t pos, token_pos g (current_player g) t = Some pos ∧
                  can_move_token pos (current_player g) 3 = Some true) ∧
        timers g' = timers g ++ match dice_roll g' with
                            | Some _ => []
                            | None => [CbNextTurn]
                            end.
Proof.
  intros g. apply (roll_dice_outcome g 3); [reflexivity|reflexivity|].
  simpl. lia.
Defined.

(** ** The order of play *)

(** X8. The turn goes round.  With no winner on the board, [k] calls of
    [next_turn] in a row move the turn [k] players on, modulo the number
    of players, and touch no token; after as many calls as there are
    players the turn is back where it was. *)
Theorem next_turns_round_robin (g : Game) (k : nat) :
  wf_game g = true → find_winner 0 (players g) = None →
  ∃ g', next_turns k g = Some g' ∧
        current_player g' = ((current_player g + k) `mod` num_players g)%nat ∧
        players g' = players g ∧
        num_players g' = num_players g ∧
        dialogs g' = dialogs g.
Proof.
  revert g. induction k as [|k IH]; intros g Hwf Hnone.
  - exists g. cbn [next_turns]. split_and!; try done.
    apply wf_game_spec in Hwf as (_ & _ & Hc & _).
    rewrite Nat.add_0_r. by rewrite Nat.mod_small.
  - cbn [next_turns]. unfold next_turn, check_winner. rewrite Hnone.
    pose proof Hwf as (_ & Hn & Hc & _)%wf_game_spec.
    rewrite bool_decide_eq_false_2 by lia. cbn [mbind option_bind].
    set (g1 := update_ui _).
    assert (players g1 = players g) as Hp1.
    { unfold g1. by rewrite players_update_ui. }
    assert (num_players g1 = num_players g) as Hn1.
    { unfold g1, update_ui. by destruct (_ && _). }
    assert (dialogs g1 = dialogs g) as Hd1.
    { unfold g1, update_ui. by destruct (_ && _). }
    assert (current_player g1
            = ((current_player g + 1) `mod` num_players g)%nat) as Hc1.
    { unfold g1. by rewrite current_player_update_ui. }
    assert (wf_game g1 = true) as Hwf1.
    { apply wf_game_spec. rewrite Hp1, Hn1, Hc1.
      apply wf_game_spec in Hwf as (? & ? & ? & ?).
      repeat split; try done; try lia. apply Nat.mod_upper_bound. lia. }
    destruct (IH g1 Hwf1) as (g' & Hrun & Hc' & Hp' & Hn' & Hd').
    { by rewrite Hp1. }
    exists g'. split; [done|]. rewrite Hc', Hp', Hn', Hd', Hc1, Hn1.
    split_and!; try done.
    rewrite Nat.Div0.add_mod_idemp_l. f_equal. lia.
Qed.

Lemma next_turns_round_robin_witness :
  let g := mkGame [[10; -1; -1; -1]; [-1; -1; -1; -1]; [57; 57; 57; 30]]
                  2 None 1 3 [] [] in
  ∃ g', next_turns 3 g = Some g' ∧
        current_player g' = ((current_player g + 3) `mod` num_players g)%nat ∧
        players g' = players g ∧
        num_players g' = num_players g ∧
        dialogs g' = dialogs g.
Proof.
  intros g. apply (next_turns_round_robin g 3); reflexivity.
Defined.

(** X9. How a move on a roll other than 6 ends.  [on_done] resolves the
    capture, clears the roll and calls [next_turn]: if then some player has
    four tokens on 57, the first such player is announced and the player to
    move stays; otherwise the turn passes to the next player, modulo the
    number of players, and no dialog is shown. *)
Theorem on_done_ends_turn (g : Game) (p t : nat) (roll : Z) :
  wf_game g = true → is_Some (token_pos g p t) → roll ≠ 6 →
  ∃ g', on_done g p t roll = Some g' ∧
        dice_roll g' = None ∧
        match find_winner 0 (players g') with
        | Some w =>
            current_player g' = current_player g ∧
            dialogs g' = DlgGameOver w :: dialogs g
        | None =>
            current_player g'
            = ((current_player g + 1) `mod` num_players g)%nat ∧
            dialogs g' = dialogs g
        end.
Proof.
  intros Hwf [pos Hp] Hroll. unfold on_done. rewrite Hp.
  cbn [mbind option_bind].
  assert (∃ g1, (if bool_decide (pos >= 0 ∧ pos < MAIN_PATH_LEN)
                 then check_capture g p t else Some g) = Some g1 ∧
                current_player g1 = current_player g ∧
                num_players g1 = num_players g ∧
                dialogs g1 = dialogs g)
    as (g1 & -> & Hc & Hn & Hdl).
  { destruct (bool_decide _); [|by exists g].
    unfold check_capture. rewrite Hp. by eexists. }
  cbn [mbind option_bind]. rewrite bool_decide_eq_true_2 by done.
  unfold next_turn, check_winner.
  change (players (set_dice_roll None g1)) with (players g1).
  destruct (find_winner 0 (players g1)) as [w|] eqn:Hw.
  - eexists. split; [done|]. cbn [show set_dice_roll players dice_roll
      current_player dialogs]. rewrite Hw. by rewrite Hc, Hdl.
  - apply wf_game_spec in Hwf as (_ & Hnp & _).
    rewrite bool_decide_eq_false_2
      by (cbn [set_dice_roll num_players]; lia).
    eexists. split; [done|].
    rewrite dice_roll_update_ui, players_update_ui, current_player_update_ui.
    cbn [set_dice_roll set_current_player players dice_roll current_player
      num_players]. rewrite Hw, Hc, Hn. split_and!; try done.
    unfold update_ui. destruct (_ && _); cbn; done.
Qed.

Lemma on_done_ends_turn_witness :
  let g := mkGame [[57; 57; 57; 57]; [13; -1; -1; -1]] 0 (Some 2) 2 2 [] [] in
  ∃ g', on_done g 0 3 2 = Some g' ∧
        dice_roll g' = None ∧
        match find_winner 0 (players g') with
        | Some w =>
            current_player g' = current_player g ∧
            dialogs g' = DlgGameOver w :: dialogs g
        | None =>
            current_player g'
            = ((current_player g + 1) `mod` num_players g)%nat ∧
            dialogs g' = dialogs g
        end.
Proof.
  intros g. apply (on_done_ends_turn g 0 3 2); [reflexivity|by eexists|lia].
Defined.

(** ** A move from start to end *)

Lemma token_pos_set_pos_other p t v g q u :
  (q, u) ≠ (p, t) → token_pos (set_pos p t v g) q u = token_pos g q u.
Proof.
  intros Hne. unfold token_pos. cbn [set_pos set_players players].
  destruct (decide (q = p)) as [->|Hq].
  - rewrite list_lookup_alter_eq.
    destruct (players g !! p) as [toks|]; [|done].
    cbn [mbind option_bind fmap option_fmap option_map].
    apply list_lookup_insert_ne. congruence.
  - by rewrite list_lookup_alter_ne.
Qed.

Lemma set_pos_fields p t v g :
  current_player (set_pos p t v g) = current_player g ∧
  dice_roll (set_pos p t v g) = dice_roll g ∧
  timers (set_pos p t v g) = timers g.
Proof. done. Qed.

(** The state in the middle of an animation that no other event
    interrupts: the first [j] entries are stored, the others wait. *)
Lemma run_animation_prefix r c p t roll :
  ∀ (j : nat) rest g,
    timers g = [] → (j ≤ length rest)%nat →
    run (repeat (Fire 0 r c) j) (after (CbStepEnd p t rest roll) g)
    = Some (after (CbStepEnd p t (drop j rest) roll)
                  (foldl (λ g0 v, set_pos p t v g0) g (take j rest))).
Proof.
  induction j as [|j IH]; intros rest g Ht Hj.
  - by rewrite drop_0, take_0.
  - destruct rest as [|x rest]; [simpl in Hj; lia|].
    cbn [repeat run step].
    assert (timers (after (CbStepEnd p t (x :: rest) roll) g) !! 0%nat
            = Some (CbStepEnd p t (x :: rest) roll)) as ->
        by (simpl; by rewrite Ht).
    rewrite fired_only_timer by done.
    cbn [fire animate_move mbind option_bind].
    rewrite IH; [done|done|simpl in Hj; lia].
Qed.

Lemma foldl_set_pos_last p t :
  ∀ path g v,
    is_Some (token_pos g p t) → last path = Some v →
    token_pos (foldl (λ g0 v, set_pos p t v g0) g path) p t = Some v.
Proof.
  induction path as [|x path IH]; intros g v Hs Hlast; [done|].
  cbn [foldl]. destruct path as [|y path].
  - injection Hlast as <-. cbn [foldl]. by apply token_pos_set_pos.
  - apply IH; [|by rewrite last_cons_cons in Hlast].
    rewrite token_pos_set_pos; eauto.
Qed.

Lemma foldl_set_pos_other p t q u :
  (q, u) ≠ (p, t) →
  ∀ path g,
    token_pos (foldl (λ g0 v, set_pos p t v g0) g path) q u = token_pos g q u.
Proof.
  intros Hne. induction path as [|x path IH]; intros g; [done|].
  cbn [foldl]. rewrite IH. by apply token_pos_set_pos_other.
Qed.

(** X10. Logical and drawn position go in step.  While the animation of a
    path runs and nothing else happens, after [j] drawn steps the moving
    token stands on the [j]-th stored entry, every other token is where it
    was, the rest of the path is still scheduled, and the roll is still
    pending and the player to move the same. *)
Theorem animation_in_step (g : Game) (p t : nat) (rest : list Z) (roll : Z)
        (r : Z) (c : nat) (j : nat) :
  timers g = [] → (j ≤ length rest)%nat → is_Some (token_pos g p t) →
  ∃ g', run (repeat (Fire 0 r c) j) (after (CbStepEnd p t rest roll) g)
        = Some g' ∧
        timers g' = [CbStepEnd p t (drop j rest) roll] ∧
        dice_roll g' = dice_roll g ∧
        current_player g' = current_player g ∧
        (∀ v, last (take j rest) = Some v → token_pos g' p t = Some v) ∧
        (∀ q u, (q, u) ≠ (p, t) → token_pos g' q u = token_pos g q u).
Proof.
  intros Ht Hj Hs. eexists. split; [by apply run_animation_prefix|].
  destruct (foldl_set_pos_fields p t (take j rest) g) as (Hc & Hd & _ & Htm).
  split_and!.
  - cbn [after set_timers timers]. by rewrite Htm, Ht.
  - exact Hd.
  - exact Hc.
  - intros v Hv. by apply (foldl_set_pos_last p t (take j rest) g v).
  - intros q u Hne. by apply (foldl_set_pos_other p t q u Hne (take j rest) g).
Qed.

Lemma animation_in_step_witness :
  let g := mkGame [[11; 20; -1; -1]; [13; -1; -1; -1]] 0 (Some 3) 2 2 [] [] in
  ∃ g', run (repeat (Fire 0 0 0) 1) (after (CbStepEnd 0 0 [12; 13] 3) g)
        = Some g' ∧
        timers g' = [CbStepEnd 0 0 (drop 1 [12; 13]) 3] ∧
        dice_roll g' = dice_roll g ∧
        current_player g' = current_player g ∧
        (∀ v, last (take 1 [12; 13]) = Some v → token_pos g' 0 0 = Some v) ∧
        (∀ q u, (q, u) ≠ (0%nat, 0%nat) → token_pos g' q u = token_pos g q u).
Proof.
  intros g. apply (animation_in_step g 0 0 [12; 13] 3 0 0 1);
    [reflexivity | simpl; lia | by eexists].
Defined.

(** What [on_done] does to the tokens: those of the moved token's player
    stay, and on a shared-track cell no token of another player stays
    beside the moved one. *)
Lemma on_done_tokens g p t roll pos g' :
  token_pos g p t = Some pos → on_done g p t roll = Some g' →
  (∀ u, token_pos g' p u = token_pos g p u) ∧
  (0 <= pos <= 51 → ∀ q u, token_pos g' q u = Some pos → q = p) ∧
  (∀ q u v, token_pos g' q u = Some v → v = -1 ∨ token_pos g q u = Some v).
Proof.
  intros Hp. unfold on_done. rewrite Hp. cbn [mbind option_bind].
  destruct (bool_decide (pos >= 0 ∧ pos < MAIN_PATH_LEN)) eqn:Htrack.
  - destruct (check_capture g p t) as [g1|] eqn:Hc;
      cbn [mbind option_bind]; [|done].
    intros Hnext.
    assert (players g' = players g1) as Hpl.
    { destruct (bool_decide (roll ≠ 6)).
      - by rewrite (players_next_turn _ _ Hnext).
      - injection Hnext as <-. by rewrite players_update_ui. }
    pose proof (token_pos_check_capture _ _ _ _ _ Hp Hc) as Hcap.
    split_and!.
    + intros u. rewrite (token_pos_players _ _ Hpl), Hcap.
      destruct (token_pos g p u) as [old|]; [|done]. simpl.
      rewrite bool_decide_eq_false_2; [done|]. by intros [? _].
    + intros _ q u. rewrite (token_pos_players _ _ Hpl), Hcap.
      destruct (token_pos g q u) as [old|]; [|done]. simpl.
      apply bool_decide_eq_true in Htrack. unfold MAIN_PATH_LEN in *.
      destruct (bool_decide (q ≠ p ∧ old = pos ∧ old < 52)) eqn:Hb.
      * intros [= Heq]. lia.
      * apply bool_decide_eq_false in Hb.
        intros [= ->]. destruct (decide (q = p)); [done|].
        exfalso. apply Hb. split_and!; [done|done|lia].
    + intros q u v. rewrite (token_pos_players _ _ Hpl), Hcap.
      destruct (token_pos g q u) as [old|]; [|done]. simpl.
      destruct (bool_decide (q ≠ p ∧ old = pos ∧ old < MAIN_PATH_LEN));
        intros [= Hv]; [left|right]; congruence.
  - apply bool_decide_eq_false in Htrack. cbn [mbind option_bind].
    intros Hnext.
    assert (players g' = players g) as Hpl.
    { destruct (bool_decide (roll ≠ 6)).
      - by rewrite (players_next_turn _ _ Hnext).
      - injection Hnext as <-. by rewrite players_update_ui. }
    split_and!.
    + intros u. by rewrite (token_pos_players _ _ Hpl).
    + unfold MAIN_PATH_LEN in *. intros ?. exfalso. apply Htrack. lia.
    + intros q u v. rewrite (token_pos_players _ _ Hpl). by right.
Qed.

(** X11. A legal move ends on the landing that [advance_position] gives.
    For a token on the track or in the home stretch and a legal pending
    roll, [make_move] followed by as many drawn steps as the roll counts
    leaves the token on [advance_position(pos, roll)] and clears the
    roll. *)
Theorem make_move_lands (g : Game) (p t : nat) (pos roll : Z)
        (r : Z) (c : nat) :
  wf_game g = true → timers g = [] →
  dice_roll g = Some roll → 1 <= roll →
  token_pos g p t = Some pos → 0 <= pos <= 57 →
  can_move_token pos p roll = Some true →
  ∃ gm g' new,
    make_move g p t = Some gm ∧
    run (repeat (Fire 0 r c) (Z.to_nat roll)) gm = Some g' ∧
    advance_position pos roll p = Some new ∧
    token_pos g' p t = Some new ∧
    dice_roll g' = None.
Proof.
  intros Hwf Htm Hd Hroll Hp Hboard Hlegal.
  destruct (wf_token_pos _ _ _ _ Hwf Hp) as (_ & Hlt & _).
  assert (is_Some (HOME_ENTRY !! p)) as He.
  { apply wf_game_spec in Hwf as (_ & Hn & _).
    apply lookup_lt_is_Some. simpl. lia. }
  destruct (make_move_path_on_board pos roll p He Hboard Hroll Hlegal)
    as (path & new & Hpath & Hnew & Hlen & Hlast & Hall & _).
  unfold make_move. rewrite Hd, Hp. cbn [mbind option_bind].
  rewrite Hpath. cbn [mbind option_bind].
  destruct path as [|x rest]; [simpl in Hlen; lia|].
  cbn [animate_move].
  set (g2 := set_pos p t x g).
  set (gf := foldl (λ g0 v, set_pos p t v g0) g2 rest).
  assert (is_Some (token_pos g2 p t)) as Hs2.
  { unfold g2. rewrite token_pos_set_pos; eauto. }
  assert (token_pos gf p t = Some new) as Hpf.
  { destruct rest as [|y rest].
    - injection Hlast as <-. unfold gf, g2. cbn [foldl].
      apply token_pos_set_pos. eauto.
    - apply foldl_set_pos_last; [done|]. by rewrite last_cons_cons in Hlast. }
  assert (wf_game gf = true) as Hwff.
  { apply Forall_cons in Hall as [Hx Hrest].
    apply wf_foldl_set_pos; [done|]. apply wf_set_pos; [by right|done]. }
  destruct (on_done_total gf p t roll Hwff ltac:(eauto)) as [g' Hdone].
  exists (after (CbStepEnd p t rest roll) g2), g', new.
  split; [done|]. split.
  { replace (Z.to_nat roll) with (S (length rest)) by (simpl in Hlen; lia).
    by rewrite run_animation. }
  split; [done|]. split.
  - destruct (on_done_tokens _ _ _ _ _ _ Hpf Hdone) as (Hown & _ & _).
    by rewrite Hown.
  - revert Hdone. unfold on_done. rewrite Hpf. cbn [mbind option_bind].
    destruct (if bool_decide (new >= 0 ∧ new < MAIN_PATH_LEN)
              then check_capture gf p t else Some gf) as [g1|]; [|done].
    cbn [mbind option_bind]. destruct (bool_decide (roll ≠ 6)).
    + unfold next_turn, check_winner.
      destruct (find_winner 0 _); [by intros [= <-]|].
      case_bool_decide; [done|]. intros [= <-].
      by rewrite dice_roll_update_ui.
    + intros [= <-]. by rewrite dice_roll_update_ui.
Qed.

Lemma make_move_lands_witness :
  let g := mkGame [[50; 20; -1; -1]; [13; -1; -1; -1]] 0 (Some 3) 2 2 [] [] in
  ∃ gm g' new,
    make_move g 0 0 = Some gm ∧
    run (repeat (Fire 0 0 0) (Z.to_nat 3)) gm = Some g' ∧
    advance_position 50 3 0 = Some new ∧
    token_pos g' 0 0 = Some new ∧
    dice_roll g' = None.
Proof.
  intros g. apply (make_move_lands g 0 0 50 3 0 0);
    [reflexivity | reflexivity | reflexivity | lia | reflexivity | lia
    | reflexivity].
Defined.

(** X12. Shared-track cells stay exclusive.  If no two tokens of
    different players share a shared-track cell, then after a legal move of
    a token on the board, run to its end without other events, this is
    still so: the moved token stands on its landing, the landing cell has
    been cleared of opposing tokens (each of them reads [-1]) when it is a
    shared-track cell, and nothing else has moved (every other token reads
    its old position). *)
Theorem move_keeps_cells_exclusive (g : Game) (p t : nat) (pos roll : Z)
        (r : Z) (c : nat) :
  wf_game g = true → timers g = [] →
  dice_roll g = Some roll → 1 <= roll →
  token_pos g p t = Some pos → 0 <= pos <= 57 →
  can_move_token pos p roll = Some true →
  exclusive g →
  ∃ gm g' new,
    make_move g p t = Some gm ∧
    run (repeat (Fire 0 r c) (Z.to_nat roll)) gm = Some g' ∧
    advance_position pos roll p = Some new ∧
    token_pos g' p t = Some new ∧
    (∀ q u, (q, u) ≠ (p, t) →
            token_pos g' q u =
            (λ old, if bool_decide (q ≠ p ∧ old = new ∧ 0 <= new <= 51)
                    then -1 else old) <$> token_pos g q u) ∧
    exclusive g'.
Proof.
  intros Hwf Htm Hd Hroll Hp Hboard Hlegal Hex.
  destruct (wf_token_pos _ _ _ _ Hwf Hp) as (_ & Hlt & _).
  assert (is_Some (HOME_ENTRY !! p)) as He.
  { apply wf_game_spec in Hwf as (_ & Hn & _).
    apply lookup_lt_is_Some. simpl. lia. }
  destruct (make_move_path_on_board pos roll p He Hboard Hroll Hlegal)
    as (path & new & Hpath & Hnew & Hlen & Hlast & Hall & _).
  unfold make_move. rewrite Hd, Hp. cbn [mbind option_bind].
  rewrite Hpath. cbn [mbind option_bind].
  destruct path as [|x rest]; [simpl in Hlen; lia|].
  cbn [animate_move].
  set (g2 := set_pos p t x g).
  set (gf := foldl (λ g0 v, set_pos p t v g0) g2 rest).
  assert (is_Some (token_pos g2 p t)) as Hs2.
  { unfold g2. rewrite token_pos_set_pos; eauto. }
  assert (token_pos gf p t = Some new) as Hpf.
  { destruct rest as [|y rest].
    - injection Hlast as <-. unfold gf, g2. cbn [foldl].
      apply token_pos_set_pos. eauto.
    - apply foldl_set_pos_last; [done|]. by rewrite last_cons_cons in Hlast. }
  assert (∀ q u, (q, u) ≠ (p, t) → token_pos gf q u = token_pos g q u)
    as Hothers.
  { intros q u Hne. unfold gf. rewrite foldl_set_pos_other by done.
    by apply token_pos_set_pos_other. }
  assert (wf_game gf = true) as Hwff.
  { apply Forall_cons in Hall as [Hx Hrest].
    apply wf_foldl_set_pos; [done|]. apply wf_set_pos; [by right|done]. }
  destruct (on_done_total gf p t roll Hwff ltac:(eauto)) as [g' Hdone].
  exists (after (CbStepEnd p t rest roll) g2), g', new.
  split; [done|]. split.
  { replace (Z.to_nat roll) with (S (length rest)) by (simpl in Hlen; lia).
    by rewrite run_animation. }
  split; [done|].
  destruct (on_done_tokens _ _ _ _ _ _ Hpf Hdone) as (Hown & Hclear & Hkept).
  split; [by rewrite Hown|]. split.
  { intros q u Hne.
    rewrite (on_done_positions gf g' p t roll new Hpf Hdone q u).
    by rewrite Hothers. }
  intros q u q' u' cell Hq Hq' Hcell.
  destruct (Hkept _ _ _ Hq) as [?|Hqf]; [lia|].
  destruct (Hkept _ _ _ Hq') as [?|Hqf']; [lia|].
  destruct (decide ((q, u) = (p, t))) as [[= -> ->]|Hne].
  - rewrite Hpf in Hqf. injection Hqf as ->.
    symmetry. by apply (Hclear Hcell q' u').
  - destruct (decide ((q', u') = (p, t))) as [[= -> ->]|Hne'].
    + rewrite Hpf in Hqf'. injection Hqf' as ->.
      by apply (Hclear Hcell q u).
    + rewrite Hothers in Hqf, Hqf' by done.
      by apply (Hex q u q' u' cell).
Qed.

Lemma move_keeps_cells_exclusive_witness :
  let g := mkGame [[10; 20; -1; -1]; [13; 30; -1; 52]] 0 (Some 3) 2 2 [] [] in
  ∃ gm g' new,
    make_move g 0 0 = Some gm ∧
    run (repeat (Fire 0 0 0) (Z.to_nat 3)) gm = Some g' ∧
    advance_position 10 3 0 = Some new ∧
    token_pos g' 0 0 = Some new ∧
    (∀ q u, (q, u) ≠ (0%nat, 0%nat) →
            token_pos g' q u =
            (λ old, if bool_decide (q ≠ 0%nat ∧ old = new ∧ 0 <= new <= 51)
                    then -1 else old) <$> token_pos g q u) ∧
    exclusive g'.
Proof.
  intros g. apply (move_keeps_cells_exclusive g 0 0 10 3 0 0);
    [reflexivity | reflexivity | reflexivity | lia | reflexivity | lia
    | reflexivity |].
  subst g. intros q u q' u' cell Hq Hq' Hcell.
  destruct q as [|[|q]], q' as [|[|q']]; try done;
    destruct u as [|[|[|[|u]]]]; try done;
    destruct u' as [|[|[|[|u']]]]; try done;
    cbv in Hq, Hq'; simplify_eq; lia.
Defined.

(** ** Who is announced *)

(** X13. [check_winner] shows a dialog exactly when some player has all
    four tokens on 57, and the player it names is the first such player in
    the order of [self.players]; otherwise it shows nothing and answers
    False. *)
Theorem check_winner_names_first (g : Game) :
  wf_game g = true →
  (∀ w, check_winner g = (true, show (DlgGameOver w) g) ↔
        (∃ toks, players g !! w = Some toks ∧ Forall (λ pos, pos = 57) toks) ∧
        ∀ j toks', (j < w)%nat → players g !! j = Some toks' →
                   ¬ Forall (λ pos, pos = 57) toks') ∧
  (check_winner g = (false, g) ↔
   ∀ j toks', players g !! j = Some toks' → ¬ Forall (λ pos, pos = 57) toks').
Proof.
  intros (_ & _ & _ & Hall)%wf_game_spec. rewrite Forall_lookup in Hall.
  assert (∀ j toks, players g !! j = Some toks →
                    finished toks = TOKENS_PER_PLAYER
                    ↔ Forall (λ pos, pos = 57) toks) as Hfin.
  { intros j toks Hj. destruct (Hall _ _ Hj) as [<- _]. apply finished_all. }
  unfold check_winner. split.
  - intros w. split.
    + destruct (find_winner 0 (players g)) as [w'|] eqn:Hw; [|done].
      intros [= Heq]. subst w'.
      apply find_winner_spec in Hw as (toks & _ & Hl & Hf & Hfirst).
      rewrite Nat.sub_0_r in Hl, Hfirst. split.
      * exists toks. split; [done|]. by apply (Hfin w).
      * intros j toks' Hj Hl' H57. apply (Hfirst j toks' Hj Hl').
        by apply (Hfin j).
    + intros [(toks & Hl & H57) Hfirst].
      assert (find_winner 0 (players g) = Some w) as ->; [|done].
      apply find_winner_spec. exists toks. rewrite Nat.sub_0_r.
      split_and!; [lia|done|by apply (Hfin w)|].
      intros j toks' Hj Hl' Hf. apply (Hfirst j toks' Hj Hl').
      by apply (Hfin j).
  - split.
    + destruct (find_winner 0 (players g)) as [w|] eqn:Hw; [done|].
      intros _ j toks' Hl' H57.
      destruct (find_winner_some (players g) 0 j toks' Hl') as [w Hw'];
        [by apply (Hfin j)|congruence].
    + intros Hnone.
      destruct (find_winner 0 (players g)) as [w|] eqn:Hw; [|done].
      exfalso. apply find_winner_spec in Hw as (toks & _ & Hl & Hf & _).
      rewrite Nat.sub_0_r in Hl. apply (Hnone w toks Hl). by apply (Hfin w).
Qed.

Lemma check_winner_names_first_witness :
  let g := mkGame [[57; 57; 57; 56]; [57; 57; 57; 57]; [57; 57; 57; 57]]
                  0 None 3 3 [] [] in
  (∀ w, check_winner g = (true, show (DlgGameOver w) g) ↔
        (∃ toks, players g !! w = Some toks ∧ Forall (λ pos, pos = 57) toks) ∧
        ∀ j toks', (j < w)%nat → players g !! j = Some toks' →
                   ¬ Forall (λ pos, pos = 57) toks') ∧
  (check_winner g = (false, g) ↔
   ∀ j toks', players g !! j = Some toks' → ¬ Forall (λ pos, pos = 57) toks').
Proof. intros g. apply (check_winner_names_first g). reflexivity. Defined.

(** ** Games without AI players *)

(** X14. When every player is human the AI never acts.  In a well-formed
    game with as many human players as players and no AI callback
    scheduled, whatever events follow, no [ai_roll] and no AI move is ever
    scheduled. *)
Theorem all_human_game_has_no_ai (es : list event) (g g' : Game) :
  sound g → (num_players g ≤ human_count g)%nat → no_ai_pending g →
  run es g = Some g' → no_ai_pending g'.
Proof.
  assert (∀ g : Game,
            wf_game g = true → (num_players g ≤ human_count g)%nat →
            ∀ g', next_turn g = Some g' →
                  timers g' = timers g ∧ human_count g' = human_count g
                  ∧ num_players g' = num_players g) as Hnext.
  { intros g0 Hwf Hh g1. unfold next_turn, check_winner.
    destruct (find_winner 0 (players g0)); [by intros [= <-]|].
    case_bool_decide; [done|]. intros [= <-].
    rewrite update_ui_human; [done|].
    cbn [set_dice_roll set_current_player current_player human_count].
    apply wf_game_spec in Hwf as (_ & ? & _).
    assert ((current_player g0 + 1) `mod` num_players g0
            < num_players g0)%nat by (apply Nat.mod_upper_bound; lia).
    lia. }
  assert (∀ g p t roll g',
            wf_game g = true → (num_players g ≤ human_count g)%nat →
            on_done g p t roll = Some g' →
            timers g' = timers g ∧ human_count g' = human_count g
            ∧ num_players g' = num_players g) as Hdone.
  { intros g0 p t roll g1 Hwf Hh. unfold on_done.
    destruct (token_pos g0 p t) as [pos|] eqn:Hp; [|done].
    cbn [mbind option_bind].
    destruct (if bool_decide (pos >= 0 ∧ pos < MAIN_PATH_LEN)
              then check_capture g0 p t else Some g0) as [g2|] eqn:Hg2;
      [|done].
    cbn [mbind option_bind].
    assert (wf_game g2 = true ∧ timers g2 = timers g0
            ∧ human_count g2 = human_count g0
            ∧ num_players g2 = num_players g0) as (Hwf2 & Ht2 & Hh2 & Hn2).
    { destruct (bool_decide (pos >= 0 ∧ pos < MAIN_PATH_LEN)).
      - split; [by apply (wf_check_capture _ _ _ _ Hg2)|].
        unfold check_capture in Hg2. rewrite Hp in Hg2.
        by injection Hg2 as <-.
      - by injection Hg2 as <-. }
    destruct (bool_decide (roll ≠ 6)).
    - intros Hn.
      assert (wf_game (set_dice_roll None g2) = true) as Hwf3
          by (by apply (wf_game_players g2)).
      assert (num_players (set_dice_roll None g2)
              ≤ human_count (set_dice_roll None g2))%nat as Hh3
          by (cbn [set_dice_roll num_players human_count]; lia).
      destruct (Hnext _ Hwf3 Hh3 g1 Hn) as (-> & -> & ->). done.
    - intros [= <-]. rewrite update_ui_human; [done|].
      cbn [set_dice_roll current_player human_count].
      apply wf_game_spec in Hwf2 as (_ & _ & ? & _). lia. }
  assert (∀ g p t g',
            sound g → (num_players g ≤ human_count g)%nat → no_ai_pending g →
            make_move g p t = Some g' →
            no_ai_pending g' ∧ human_count g' = human_count g
            ∧ num_players g' = num_players g) as Hmove.
  { intros g0 p t g1 [Hwf _] Hh Hno. unfold make_move.
    destruct (dice_roll g0) as [roll|]; [|done]. cbn [mbind option_bind].
    destruct (token_pos g0 p t) as [old|]; [|done]. cbn [mbind option_bind].
    destruct (make_move_path old roll p) as [[|x rest]|]; [| |done];
      cbn [mbind option_bind animate_move].
    - intros Hd. destruct (Hdone _ _ _ _ _ Hwf Hh Hd) as (Ht & -> & ->).
      unfold no_ai_pending. by rewrite Ht.
    - intros [= <-]. split; [|done]. unfold no_ai_pending.
      cbn [after set_timers timers set_pos set_players].
      apply Forall_app. split; [done|]. by constructor. }
  revert g. induction es as [|e es IH]; intros g Hs Hh Hno; cbn [run].
  - by intros [= <-].
  - destruct (step g e) as [g1|] eqn:Hstep; [|done].
    cbn [mbind option_bind].
    pose proof (sound_step g g1 e Hs Hstep) as Hs1.
    assert (no_ai_pending g1 ∧ human_count g1 = human_count g
            ∧ num_players g1 = num_players g) as (Hno1 & Hh1 & Hn1).
    { destruct Hs as [Hwf Htm].
      pose proof Hwf as (_ & _ & Hc & _)%wf_game_spec.
      destruct e as [r|[[p t]|]|k r c]; cbn [step] in Hstep.
      - unfold roll_dice in Hstep.
        destruct (dice_roll g); [by injection Hstep as <-|].
        rewrite bool_decide_eq_false_2 in Hstep by lia.
        cbv zeta in Hstep.
        destruct (players _ !! _) as [toks|]; [|done].
        cbn [mbind option_bind] in Hstep.
        destruct (movable_tokens toks _ r) as [[|m ms]|]; [| |done];
          cbn [mbind option_bind] in Hstep.
        + injection Hstep as <-. split; [|done]. unfold no_ai_pending.
          cbn [after set_timers timers set_dice_roll].
          apply Forall_app. split; [done|]. by constructor.
        + rewrite update_ui_human in Hstep
            by (cbn [set_dice_roll current_player human_count]; lia).
          by injection Hstep as <-.
      - unfold on_token_clicked in Hstep.
        destruct (bool_decide (p ≠ current_player g));
          [by injection Hstep as <-|].
        destruct (dice_roll g) as [roll|] eqn:Hd;
          [|by injection Hstep as <-].
        destruct (token_pos g p t) as [pos|]; [|done].
        cbn [mbind option_bind] in Hstep.
        destruct (can_move_token pos p roll) as [[|]|]; [| |done];
          cbn [mbind option_bind] in Hstep; [|by injection Hstep as <-].
        by apply (Hmove g p t g1).
      - by injection Hstep as <-.
      - destruct (timers g !! k) as [cb|] eqn:Hk;
          [|by injection Hstep as <-].
        set (g0 := set_timers (delete k (timers g)) g) in *.
        assert (no_ai_pending g0) as Hno0 by (by apply Forall_delete).
        assert (sound g0) as Hs0.
        { split; [by apply (wf_game_players g)|by apply Forall_delete]. }
        unfold no_ai_pending in Hno. rewrite Forall_lookup in Hno.
        specialize (Hno _ _ Hk).
        destruct cb as [| |p t|p t rest roll]; try done; cbn [fire] in Hstep.
        + destruct Hs0 as [Hwf0 _].
          destruct (Hnext g0 Hwf0 Hh g1 Hstep) as (Ht & -> & ->).
          unfold no_ai_pending. by rewrite Ht.
        + destruct rest as [|x rest]; cbn [animate_move] in Hstep.
          * destruct Hs0 as [Hwf0 _].
            destruct (Hdone g0 p t roll g1 Hwf0 Hh Hstep) as (Ht & -> & ->).
            unfold no_ai_pending. by rewrite Ht.
          * injection Hstep as <-. split; [|done]. unfold no_ai_pending.
            cbn [after set_timers timers set_pos set_players].
            apply Forall_app. split; [done|]. by constructor. }
    apply (IH g1); [done|lia|done].
Qed.

Lemma all_human_game_has_no_ai_witness :
  no_ai_pending (mkGame [[13; 20; -1; -1]; [-1; 30; -1; -1]] 1 None 2 2 [] []).
Proof.
  apply (all_human_game_has_no_ai
           (RollClick 3 :: TokenClick (Some (0, 0)%nat) :: repeat (Fire 0 0 0) 3)
           (mkGame [[10; 20; -1; -1]; [13; 30; -1; -1]] 0 None 2 2 [] [])).
  - split; [reflexivity|constructor].
  - simpl. lia.
  - constructor.
  - reflexivity.
Defined.

(** * Drawing: proofs *)

Lemma py_index_is_Some {A} (l : list A) (i : Z) :
  is_Some (Draw.py_index l i) ↔ - Z.of_nat (length l) <= i < Z.of_nat (length l).
Proof.
  unfold Draw.py_index. case_bool_decide as Hi.
  - rewrite lookup_lt_is_Some. lia.
  - case_bool_decide as Hn.
    + rewrite lookup_lt_is_Some. lia.
    + split; [by intros [? ?]|lia].
Qed.

(** X15. A token can be drawn exactly when its position is one of the data
    model: for each of the four players [get_draw_coord] returns a point
    for position [-1], [0..51] and [52..57], and raises [IndexError] for
    every other position (no index wraps round to a valid one). *)
Theorem get_draw_coord_defined (player index : nat) (pos : Z) :
  (player < 4)%nat →
  is_Some (Draw.get_draw_coord player index pos) ↔ valid_pos pos.
Proof.
  intros Hp. unfold Draw.get_draw_coord, valid_pos, MAIN_PATH_LEN.
  case_bool_decide as Hbase.
  - assert (is_Some (Draw.base_pos player)) as [b ->].
    { do 4 (destruct player as [|player]; [by eexists|]). lia. }
    cbn [mbind option_bind]. split; [by left|by eexists].
  - case_bool_decide as Htrack.
    + rewrite py_index_is_Some, PATH_COORDS_length. lia.
    + assert (∃ hx, Board.HOME_COORDS player = Some hx ∧ length hx = 6%nat)
        as (hx & -> & Hlen).
      { do 4 (destruct player as [|player]; [by eexists|]). lia. }
      cbn [mbind option_bind]. rewrite py_index_is_Some, Hlen. lia.
Qed.

Lemma get_draw_coord_defined_witness :
  is_Some (Draw.get_draw_coord 2 3 57) ↔ valid_pos 57.
Proof. apply (get_draw_coord_defined 2 3 57). lia. Defined.

Lemma track_cells_check :
  forallb (λ i, forallb (λ j,
             match Board.PATH_COORDS !! i, Board.PATH_COORDS !! j with
             | Some a, Some b =>
                 negb (i <? j)%nat
                 || Bool.eqb (Board.point_eqb a b) (45 <=? i)%nat
             | _, _ => false
             end) (seq 0 52)) (seq 0 52) = true.
Proof. vm_compute. reflexivity. Qed.

(** X16. Where track tokens are drawn.  Two different shared-track
    positions are drawn at the same point exactly when both lie in
    [45..51]: the table of grid cells has 46 entries and
    [build_path_coords] fills the remaining six with copies of the last
    one, so tokens on the last seven track cells are drawn on top of each
    other. *)
Theorem track_positions_drawn_apart (player index : nat) (a b : Z)
        (pa pb : Board.point) :
  0 <= a → a < b → b <= 51 →
  Draw.get_draw_coord player index a = Some pa →
  Draw.get_draw_coord player index b = Some pb →
  Board.point_eqb pa pb = true ↔ 45 <= a.
Proof.
  intros Ha Hab Hb. unfold Draw.get_draw_coord, Draw.py_index, MAIN_PATH_LEN.
  rewrite !(bool_decide_eq_false_2 (_ = -1)) by lia.
  rewrite !(bool_decide_eq_true_2 (_ >= 0 ∧ _ < 52)) by lia.
  rewrite !(bool_decide_eq_true_2 (0 <= _)) by lia.
  intros Hpa Hpb.
  pose proof track_cells_check as Hcheck.
  rewrite forallb_forall in Hcheck.
  specialize (Hcheck (Z.to_nat a)). rewrite forallb_forall in Hcheck.
  specialize (Hcheck ltac:(apply in_seq; lia) (Z.to_nat b)
                     ltac:(apply in_seq; lia)).
  rewrite Hpa, Hpb in Hcheck.
  assert ((Z.to_nat a <? Z.to_nat b)%nat = true) as Hlt
      by (apply Nat.ltb_lt; lia).
  rewrite Hlt in Hcheck. cbn [negb orb] in Hcheck.
  apply Bool.eqb_prop in Hcheck. rewrite Hcheck.
  rewrite Nat.leb_le. lia.
Qed.

Lemma track_positions_drawn_apart_witness :
  Board.point_eqb (Board.pix 8 6) (Board.pix 8 6) = true ↔ 45 <= 47.
Proof.
  apply (track_positions_drawn_apart 0 0 47 50); [lia | lia | lia | |];
    reflexivity.
Defined.

(** * The path of [make_move], once more *)

Lemma path_from_length p :
  ∀ n cur path, path_from n cur p = Some path → (length path ≤ n)%nat.
Proof.
  induction n as [|n IH]; intros cur path; cbn [path_from].
  - intros [= <-]. done.
  - destruct (advance_position cur 1 p) as [new|]; [|done].
    cbn [mbind option_bind]. case_bool_decide; [intros [= <-]; simpl; lia|].
    destruct (path_from n new p) as [rest|] eqn:Hrest; [|done].
    cbn [mbind option_bind]. intros [= <-]. simpl.
    specialize (IH new rest Hrest). lia.
Qed.

(** X17. On the board the path is the chain of single steps.  For a token
    on the track or in the home stretch and a legal roll, the path that
    [make_move] hands to the animation has one entry per step, entry [i]
    is the position [i + 1] steps ahead as [advance_position] gives it
    (through the turn into the home stretch as well), and the last entry
    is the landing. *)
Theorem make_move_path_is_chain (pos roll : Z) (p : nat) :
  is_Some (HOME_ENTRY !! p) →
  0 <= pos <= 57 → 1 <= roll →
  can_move_token pos p roll = Some true →
  ∃ path r,
    make_move_path pos roll p = Some path ∧
    advance_position pos roll p = Some r ∧
    Z.of_nat (length path) = roll ∧
    last path = Some r ∧
    Forall (λ x, 0 <= x <= 57) path ∧
    ∀ i, (i < length path)%nat →
         path !! i = advance_position pos (Z.of_nat (S i)) p.
Proof. apply make_move_path_on_board. Qed.

Lemma make_move_path_is_chain_witness :
  ∃ path r,
    make_move_path 10 6 1 = Some path ∧
    advance_position 10 6 1 = Some r ∧
    Z.of_nat (length path) = 6 ∧
    last path = Some r ∧
    Forall (λ x, 0 <= x <= 57) path ∧
    ∀ i, (i < length path)%nat →
         path !! i = advance_position 10 (Z.of_nat (S i)) 1.
Proof.
  apply (make_move_path_is_chain 10 6 1);
    [by eexists | lia | lia | reflexivity].
Defined.

(** X18. The path is safe whatever it is asked for.  For any position of
    the data model, any player and any roll, legal or not, the path of
    [make_move] holds at most [roll] entries, all of them positions
    [0..57]: the animation never stores [-1] or a position off the
    board. *)
Theorem make_move_path_safe (pos roll : Z) (p : nat) (path : list Z) :
  valid_pos pos →
  make_move_path pos roll p = Some path →
  Forall (λ x, 0 <= x <= 57) path ∧ (length path ≤ Z.to_nat roll)%nat.
Proof.
  intros Hv Hpath. split.
  - by apply (path_from_valid p (Z.to_nat roll) pos).
  - by apply (path_from_length p (Z.to_nat roll) pos).
Qed.

Lemma make_move_path_safe_witness :
  Forall (λ x, 0 <= x <= 57) [56; 57] ∧ (length [56; 57] ≤ Z.to_nat 5)%nat.
Proof.
  apply (make_move_path_safe 55 5 0); [right; lia | reflexivity].
Defined.

(** * A fresh game *)

Lemma tokens_never_leave_base_witness :
  players (mkGame [[-1; -1; -1; -1]; [-1; -1; -1; -1]] 1 None 1 2
                  [CbAiRoll] [])
  = players (init_players 2 1).
Proof.
  apply (tokens_never_leave_base 2 1
           [RollClick 6; TokenClick (Some (0, 0)%nat); RollClick 2; Fire 0 0 0]).
  reflexivity.
Defined.
